(** * Shareholder_benefit_map: a shallow embedding of the geocoder
    (src/geocoder.py), the PDF store extractor (src/pdf_parser.py) and the
    extraction loop of src/app.py.

    Python [str] values are sequences of Unicode code points; they are
    modelled as [list N].  String literals of the source are written as
    UTF-8 Rocq strings and decoded with [u].  [str.encode()] is the UTF-8
    encoder [Utf8.encode]; hashlib's MD5 is implemented over bytes (N values
    below 256) and its [hexdigest] produces a [pystr]. *)

From Stdlib Require Import String Ascii ZArith Lia.
From Stdlib Require Import Sorting.Sorted Zify.
From stdpp Require Import base list gmap.

Abbreviation pystr := (list N).

(* ------------------------------------------------------------------ *)
(** ** UTF-8 *)

Module Utf8.

Definition bytes_of_string (s : string) : list N :=
  map N_of_ascii (list_ascii_of_string s).

(** Decoding of well-formed UTF-8 (used for the literals of the source). *)
Fixpoint decode (bs : list N) : pystr :=
  match bs with
  | [] => []
  | b0 :: rest =>
      if (b0 <? 128)%N then b0 :: decode rest
      else if (b0 <? 224)%N then
        match rest with
        | b1 :: rest' =>
            (N.land b0 31 * 64 + N.land b1 63)%N :: decode rest'
        | [] => []
        end
      else if (b0 <? 240)%N then
        match rest with
        | b1 :: b2 :: rest' =>
            (N.land b0 15 * 4096 + N.land b1 63 * 64 + N.land b2 63)%N
              :: decode rest'
        | _ => []
        end
      else
        match rest with
        | b1 :: b2 :: b3 :: rest' =>
            (N.land b0 7 * 262144 + N.land b1 63 * 4096
               + N.land b2 63 * 64 + N.land b3 63)%N :: decode rest'
        | _ => []
        end
  end.

(** [str.encode()]: UTF-8 encoding of a code point sequence. *)
Definition encode_char (c : N) : list N :=
  if (c <? 128)%N then [c]
  else if (c <? 2048)%N then
    [192 + N.shiftr c 6; 128 + N.land c 63]%N
  else if (c <? 65536)%N then
    [224 + N.shiftr c 12; 128 + N.land (N.shiftr c 6) 63; 128 + N.land c 63]%N
  else
    [240 + N.shiftr c 18; 128 + N.land (N.shiftr c 12) 63;
     128 + N.land (N.shiftr c 6) 63; 128 + N.land c 63]%N.

Definition encode (s : pystr) : list N := flat_map encode_char s.

End Utf8.

(** A source literal, as the Python [str] it denotes. *)
Definition u (s : string) : pystr := Utf8.decode (Utf8.bytes_of_string s).

(* ------------------------------------------------------------------ *)
(** ** MD5 (RFC 1321), as used by [hashlib.md5(...).hexdigest()] *)

Module MD5.
Local Open Scope Z_scope.

Definition mask32 (x : Z) : Z := Z.land x 4294967295.
Definition add32 (x y : Z) : Z := mask32 (x + y).
Definition not32 (x : Z) : Z := Z.lxor x 4294967295.
Definition rotl32 (x : Z) (n : Z) : Z :=
  mask32 (Z.lor (Z.shiftl x n) (Z.shiftr x (32 - n))).

Definition S : list Z :=
  [7; 12; 17; 22; 7; 12; 17; 22; 7; 12; 17; 22; 7; 12; 17; 22;
   5; 9; 14; 20; 5; 9; 14; 20; 5; 9; 14; 20; 5; 9; 14; 20;
   4; 11; 16; 23; 4; 11; 16; 23; 4; 11; 16; 23; 4; 11; 16; 23;
   6; 10; 15; 21; 6; 10; 15; 21; 6; 10; 15; 21; 6; 10; 15; 21].

(** K[i] = floor(2^32 * |sin(i + 1)|). *)
Definition K : list Z :=
  [3614090360; 3905402710; 606105819; 3250441966; 4118548399; 1200080426;
   2821735955; 4249261313; 1770035416; 2336552879; 4294925233; 2304563134;
   1804603682; 4254626195; 2792965006; 1236535329; 4129170786; 3225465664;
   643717713; 3921069994; 3593408605; 38016083; 3634488961; 3889429448;
   568446438; 3275163606; 4107603335; 1163531501; 2850285829; 4243563512;
   1735328473; 2368359562; 4294588738; 2272392833; 1839030562; 4259657740;
   2763975236; 1272893353; 4139469664; 3200236656; 681279174; 3936430074;
   3572445317; 76029189; 3654602809; 3873151461; 530742520; 3299628645;
   4096336452; 1126891415; 2878612391; 4237533241; 1700485571; 2399980690;
   4293915773; 2240044497; 1873313359; 4264355552; 2734768916; 1309151649;
   4149444226; 3174756917; 718787259; 3951481745].

Definition nthZ (l : list Z) (i : nat) : Z := List.nth i l 0.

(** Little-endian byte <-> word conversions. *)
Definition le_bytes (w : Z) (n : nat) : list Z :=
  List.map (fun i => Z.land (Z.shiftr w (8 * Z.of_nat i)) 255) (List.seq 0 n).

Fixpoint words_le (bs : list Z) : list Z :=
  match bs with
  | b0 :: b1 :: b2 :: b3 :: rest =>
      (b0 + 256 * b1 + 65536 * b2 + 16777216 * b3) :: words_le rest
  | _ => []
  end.

(** Padding: 0x80, zeros up to 56 mod 64, then the bit length (64-bit LE). *)
Definition pad (msg : list Z) : list Z :=
  let len := Z.of_nat (List.length msg) in
  let zeros := Z.to_nat ((55 - len) mod 64) in
  msg ++ [128] ++ List.repeat 0 zeros ++ le_bytes (8 * len) 8.

Record state := mk { a0 : Z; b0 : Z; c0 : Z; d0 : Z }.

Definition init : state := mk 1732584193 4023233417 2562383102 271733878.

Definition round (M : list Z) (abcd : Z * Z * Z * Z) (i : nat)
  : Z * Z * Z * Z :=
  let '(A, B, C, D) := abcd in
  let '(F, g) :=
    if (i <? 16)%nat then (Z.lor (Z.land B C) (Z.land (not32 B) D), i)
    else if (i <? 32)%nat then
      (Z.lor (Z.land D B) (Z.land (not32 D) C), ((5 * i + 1) mod 16)%nat)
    else if (i <? 48)%nat then
      (Z.lxor (Z.lxor B C) D, ((3 * i + 5) mod 16)%nat)
    else (Z.lxor C (Z.lor B (not32 D)), ((7 * i) mod 16)%nat) in
  let F' := add32 (add32 (add32 F A) (nthZ K i)) (nthZ M g) in
  (D, add32 B (rotl32 F' (nthZ S i)), B, C).

Definition chunk (st : state) (block : list Z) : state :=
  let M := words_le block in
  let '(A, B, C, D) :=
    List.fold_left (round M) (List.seq 0 64) (a0 st, b0 st, c0 st, d0 st) in
  mk (add32 (a0 st) A) (add32 (b0 st) B) (add32 (c0 st) C) (add32 (d0 st) D).

(** Processing of the padded message, 64 bytes at a time. *)
Fixpoint blocks (fuel : nat) (st : state) (bs : list Z) : state :=
  match fuel with
  | O => st
  | Datatypes.S f =>
      match bs with
      | [] => st
      | _ => blocks f (chunk st (List.firstn 64 bs)) (List.skipn 64 bs)
      end
  end.

Definition digest (msg : list Z) : list Z :=
  let p := pad msg in
  let st := blocks (List.length p) init p in
  le_bytes (a0 st) 4 ++ le_bytes (b0 st) 4 ++ le_bytes (c0 st) 4
    ++ le_bytes (d0 st) 4.

Definition hex_digit (d : Z) : N :=
  if d <? 10 then Z.to_N (48 + d) else Z.to_N (87 + d).

(** [hexdigest()]: two lowercase hex digits per digest byte. *)
Definition hexdigest (msg : list N) : pystr :=
  List.flat_map (fun b => [hex_digit (Z.shiftr b 4); hex_digit (Z.land b 15)])
    (digest (List.map Z.of_N msg)).

End MD5.

(* ------------------------------------------------------------------ *)
(** ** Cache key (geocoder.py, [_cache_key]) *)

(** [f"{provider}:{address}"] *)
Definition cache_key_input (address provider : pystr) : pystr :=
  provider ++ u ":" ++ address.

(** [hashlib.md5(f"{provider}:{address}".encode()).hexdigest()] *)
Definition _cache_key (address provider : pystr) : pystr :=
  MD5.hexdigest (Utf8.encode (cache_key_input address provider)).

(* ------------------------------------------------------------------ *)
(** ** Python string helpers *)

(** [str.isspace] on one code point (also the set matched by [\s] in a
    [str] pattern of the [re] module). *)
Definition py_isspace (c : N) : bool :=
  ((9 <=? c) && (c <=? 13))%N || ((28 <=? c) && (c <=? 32))%N
  || (c =? 133)%N || (c =? 160)%N || (c =? 5760)%N
  || ((8192 <=? c) && (c <=? 8202))%N || (c =? 8232)%N || (c =? 8233)%N
  || (c =? 8239)%N || (c =? 8287)%N || (c =? 12288)%N.

Fixpoint lstrip (s : pystr) : pystr :=
  match s with
  | c :: s' => if py_isspace c then lstrip s' else s
  | [] => []
  end.

(** [str.strip()] *)
Definition strip (s : pystr) : pystr := rev (lstrip (rev (lstrip s))).

Fixpoint prefix_b (p s : pystr) : bool :=
  match p, s with
  | [], _ => true
  | c :: p', d :: s' => (c =? d)%N && prefix_b p' s'
  | _ :: _, [] => false
  end.

(** [needle in hay] for strings *)
Fixpoint contains (needle hay : pystr) : bool :=
  prefix_b needle hay ||
  match hay with
  | [] => false
  | _ :: hay' => contains needle hay'
  end.

(** Truthiness of a [str]. *)
Definition truthy (s : pystr) : bool := negb (bool_decide (s = [])).

(* ------------------------------------------------------------------ *)
(** ** Geocoder: data model *)

(** A coordinate [(lat, lng)]; the float values are carried opaquely. *)
Abbreviation coord := (Z * Z)%type.

(** Values held by a store dict: strings, or the floats written to "lat",
    "lng" and "distance_km". *)
Inductive val := VStr (s : pystr) | VNum (z : Z).

(** A store record is a Python dict. *)
Abbreviation dict := (gmap pystr val).

(** What the world sees of one call: a read of the SQLite cache, a write to
    it, or one HTTP request to a provider. *)
Inductive event :=
  | EvCacheGet (key : pystr)
  | EvCacheSet (key : pystr) (c : coord)
  | EvNominatim (query : pystr)
  | EvGoogle (address api_key : pystr).

(** The providers' answers, a fixed function of the request (network errors,
    malformed answers and empty result lists are all [None], as the
    [except] clauses and [if results] make them). *)
Record Providers := {
  nominatim_answer : pystr -> option coord;
  google_answer : pystr -> pystr -> option coord
}.

(** The whole mutable world: the heap of store dicts (Python objects,
    addressed by reference), the [geocache] table (key -> (lat, lng); the
    [ts] column is never read and is omitted), the event log and the
    [lru_cache] of [geocode_single] (most recently used first). *)
Record World := {
  heap : gmap nat dict;
  db : gmap pystr coord;
  events : list event;
  lru : list ((pystr * option pystr * pystr) * option coord)
}.

Definition set_heap (w : World) h :=
  {| heap := h; db := db w; events := events w; lru := lru w |}.
Definition set_db (w : World) d :=
  {| heap := heap w; db := d; events := events w; lru := lru w |}.
Definition log (w : World) e :=
  {| heap := heap w; db := db w; events := events w ++ [e]; lru := lru w |}.
Definition set_lru (w : World) l :=
  {| heap := heap w; db := db w; events := events w; lru := l |}.

Definition NOMINATIM_MAX_WORKERS : nat := 3.
Definition GOOGLE_MAX_WORKERS : nat := 10.
(** [NOMINATIM_THREAD_DELAY = 0.4] seconds, in milliseconds. *)
Definition NOMINATIM_THREAD_DELAY_MS : Z := 400.

(* ------------------------------------------------------------------ *)
(** ** Geocoder: cache and requests *)

Section Geocoder.
Variable P : Providers.

(** [_cache_get]: [(row[0], row[1]) if row else None]. *)
Definition _cache_get (w : World) (key : pystr) : option coord * World :=
  (db w !! key, log w (EvCacheGet key)).

(** [_cache_set]: [INSERT OR REPLACE]. *)
Definition _cache_set (w : World) (key : pystr) (c : coord) : World :=
  log (set_db w (<[key := c]> (db w))) (EvCacheSet key c).

Definition _ensure_japan (address : pystr) : pystr :=
  if negb (contains (u "日本") address) && negb (contains (u "Japan") address)
  then address ++ u " 日本" else address.

(** [_nominatim_request] (its [time.sleep] is modelled in [Schedule]). *)
Definition _nominatim_request (w : World) (address : pystr)
  : option coord * World :=
  let query := _ensure_japan address in
  (nominatim_answer P query, log w (EvNominatim query)).

Definition _google_request (w : World) (address api_key : pystr)
  : option coord * World :=
  (google_answer P address api_key, log w (EvGoogle address api_key)).

(** [provider == "google" and api_key] *)
Definition use_google (api_key : option pystr) (provider : pystr) : bool :=
  bool_decide (provider = u "google")
  && match api_key with Some k => truthy k | None => false end.

(** The provider dispatch shared by [geocode_single] and [_fetch_one]. *)
Definition request (w : World) (address : pystr) (api_key : option pystr)
  (provider : pystr) : option coord * World :=
  match api_key with
  | Some k =>
      if use_google api_key provider then _google_request w address k
      else _nominatim_request w address
  | None => _nominatim_request w address
  end.

(** The body of [geocode_single] (under its [lru_cache]). *)
Definition geocode_single_body (w : World) (address : pystr)
  (api_key : option pystr) (provider : pystr) : option coord * World :=
  if negb (truthy address) then (None, w) else
  let key := _cache_key address provider in
  let '(cached, w) := _cache_get w key in
  match cached with
  | Some c => (Some c, w)
  | None =>
      let '(result, w) := request w address api_key provider in
      match result with
      | Some c => (result, _cache_set w key c)
      | None => (None, w)
      end
  end.

(** [@lru_cache(maxsize=256)]: a hit is moved to the front; a miss runs the
    body, puts its result in front and keeps the 256 most recent. *)
Definition LRU_MAXSIZE : nat := 256.

Definition lru_key_eq (k k' : pystr * option pystr * pystr) : bool :=
  bool_decide (k = k').

Definition geocode_single (w : World) (address : pystr)
  (api_key : option pystr) (provider : pystr) : option coord * World :=
  let k := (address, api_key, provider) in
  match List.find (fun e => lru_key_eq (fst e) k) (lru w) with
  | Some (_, r) =>
      (r, set_lru w ((k, r) :: List.filter (fun e => negb (lru_key_eq (fst e) k)) (lru w)))
  | None =>
      let '(r, w') := geocode_single_body w address api_key provider in
      (r, set_lru w' (List.firstn LRU_MAXSIZE ((k, r) :: lru w')))
  end.

End Geocoder.

(* ------------------------------------------------------------------ *)
(** ** Geocoder: [geocode_addresses] *)

Section Bulk.
Variable P : Providers.


(** [unique_addresses.setdefault(addr, []).append(store)] on an insertion
    ordered dict. *)
Fixpoint setdefault_append (k : pystr) (r : nat) (g : list (pystr * list nat))
  : list (pystr * list nat) :=
  match g with
  | [] => [(k, [r])]
  | (k', rs) :: g' =>
      if bool_decide (k = k') then (k', rs ++ [r]) :: g'
      else (k', rs) :: setdefault_append k r g'
  end.



(** [s["lat"], s["lng"] = c] *)
Definition set_latlng (c : coord) (d : dict) : dict :=
  <[u "lng" := VNum c.2]> (<[u "lat" := VNum c.1]> d).

(** [for s in store_list: s["lat"], s["lng"] = c], on the shared dicts. *)
Definition assign (w : World) (rs : list nat) (c : coord) : World :=
  set_heap w (fold_left (fun h r => alter (set_latlng c) r h) rs (heap w)).





End Bulk.

(* ------------------------------------------------------------------ *)
(** ** Sample inputs *)

Definition empty_world : World :=
  {| heap := ∅; db := ∅; events := []; lru := [] |}.

Definition nominatim : pystr := u "nominatim".
Definition google : pystr := u "google".

(** A free provider that knows the ward-level address only. *)
Definition shibuya_coord : coord := (35661777, 139704051)%Z.
Definition ward_only : Providers := {|
  nominatim_answer := fun q =>
    if bool_decide (q = u "東京都渋谷区 日本") then Some shibuya_coord else None;
  google_answer := fun _ _ => None
|}.


Definition shibuya_full : pystr := u "東京都渋谷区渋谷2-1-1 ABCビル3F".


(** The answer and the log entry of one provider request; [request] is
    their pair (lemma [request_eq]). *)
Definition answer (P : Providers) (address : pystr) (api_key : option pystr)
  (provider : pystr) : option coord :=
  match api_key with
  | Some k =>
      if use_google api_key provider then google_answer P address k
      else nominatim_answer P (_ensure_japan address)
  | None => nominatim_answer P (_ensure_japan address)
  end.

Definition request_event (address : pystr) (api_key : option pystr)
  (provider : pystr) : event :=
  match api_key with
  | Some k =>
      if use_google api_key provider then EvGoogle address k
      else EvNominatim (_ensure_japan address)
  | None => EvNominatim (_ensure_japan address)
  end.




(** A sequence of [assign] steps on the heap. *)
Definition assign_steps (h : gmap nat dict) (S : list (list nat * coord))
  : gmap nat dict :=
  fold_left (fun h '(rs, c) => fold_left (fun h r => alter (set_latlng c) r h) rs h)
    S h.









(* ------------------------------------------------------------------ *)
(** ** Timing of the free provider's requests *)

(** The [ThreadPoolExecutor] of [geocode_addresses] with [max_workers]
    threads: each [_fetch_one] task runs on the first free thread, which
    sleeps [NOMINATIM_THREAD_DELAY] (in [_nominatim_request]) and then sends
    the request, which takes the task's latency.  Times are milliseconds
    from the submission of the batch; nothing else paces the requests. *)
Module Schedule.
Local Open Scope Z_scope.

Fixpoint insert_sorted (x : Z) (l : list Z) : list Z :=
  match l with
  | [] => [x]
  | y :: l' => if x <=? y then x :: l else y :: insert_sorted x l'
  end.

(** [free]: the times at which the threads become idle, ascending;
    result: the time at which each task's request is sent. *)
Fixpoint run (delay : Z) (free : list Z) (latencies : list Z) : list Z :=
  match latencies, free with
  | [], _ => []
  | l :: rest, t :: free' =>
      (t + delay) :: run delay (insert_sorted (t + delay + l) free') rest
  | _ :: _, [] => []
  end.

Definition request_times (max_workers : nat) (delay : Z) (latencies : list Z)
  : list Z :=
  run delay (List.repeat 0 max_workers) latencies.

(** The number of requests sent in the one-second window starting at [t0]. *)
Definition requests_in_window (times : list Z) (t0 : Z) : nat :=
  List.length (List.filter (fun t => (t0 <=? t) && (t <? t0 + 1000)) times).

End Schedule.

(* ------------------------------------------------------------------ *)
(** ** pdf_parser.py: [_deduplicate] *)

#[global] Instance val_eq_dec : EqDecision val.
Proof. solve_decision. Defined.

(** [s.get(k, d)] *)
Definition dict_get (s : dict) (k : pystr) (d : val) : val :=
  match s !! k with Some v => v | None => d end.

(** [(s.get("company",""), s.get("name",""), s.get("address",""))] *)
Definition dedup_key (s : dict) : val * val * val :=
  (dict_get s (u "company") (VStr []), dict_get s (u "name") (VStr []),
   dict_get s (u "address") (VStr [])).

(** The loop of [_deduplicate], with the [seen] set as a list. *)
Fixpoint dedup_loop (seen : list (val * val * val)) (stores : list dict)
  : list dict :=
  match stores with
  | [] => []
  | s :: rest =>
      let key := dedup_key s in
      if bool_decide (key ∈ seen) then dedup_loop seen rest
      else s :: dedup_loop (key :: seen) rest
  end.

Definition _deduplicate (stores : list dict) : list dict := dedup_loop [] stores.

(* ------------------------------------------------------------------ *)
(** ** The [re] module, for the patterns of pdf_parser.py *)

(** The character tests [re] takes from the Unicode database:
    [\w] is [str.isalnum() or '_'], [\d] is a decimal digit (category Nd);
    [\s] is [str.isspace()], [py_isspace] above. *)
Record Unicode := {
  uni_alnum : N -> bool;
  uni_decimal : N -> bool
}.

Module Re.

(** Regular expressions without groups: a character test, concatenation,
    alternation (left first), repetition (greedy or lazy), the empty
    pattern and [^] (start of the string; no MULTILINE). *)
Inductive regex :=
| Char (p : N -> bool)
| Seq (r1 r2 : regex)
| Alt (r1 r2 : regex)
| Star (lazy : bool) (r : regex)
| Eps
| Bol.

(** The end positions of the matches of [r] in [s] starting at [i], in
    the order of the backtracking matcher: the first one is where the
    match of [re] ends.  A repetition never iterates an empty match. *)
Fixpoint ends (s : list N) (r : regex) (i : nat) : list nat :=
  match r with
  | Char p =>
      match s !! i with Some c => if p c then [S i] else [] | None => [] end
  | Seq r1 r2 => flat_map (fun k => ends s r2 k) (ends s r1 i)
  | Alt r1 r2 => ends s r1 i ++ ends s r2 i
  | Star lz r1 =>
      (fix iter (fuel : nat) (j : nat) : list nat :=
         match fuel with
         | 0 => [j]
         | S f =>
             let more :=
               flat_map (fun k => if (j <? k)%nat then iter f k else [])
                 (ends s r1 j) in
             if lz then j :: more else more ++ [j]
         end) (length s - i + 1) i
  | Eps => [i]
  | Bol => if (i =? 0)%nat then [i] else []
  end.

Definition lit (c : N) : regex := Char (N.eqb c).
Definition str (l : list N) : regex := fold_right Seq Eps (map lit l).
Definition never : regex := Char (fun _ => false).
Definition alts (l : list regex) : regex := fold_right Alt never l.
Definition opt (r : regex) : regex := Alt r Eps.
Definition star (r : regex) : regex := Star false r.
Definition plus (r : regex) : regex := Seq r (Star false r).
Definition rep (n : nat) (r : regex) : regex := Nat.iter n (Seq r) Eps.
(** [r{n,}] *)
Definition rep_min (n : nat) (r : regex) : regex := Seq (rep n r) (star r).

(** Characters of a class. *)
Definition one_of (l : list N) (c : N) : bool := existsb (N.eqb c) l.
Definition range (lo hi : N) (c : N) : bool := ((lo <=? c) && (c <=? hi))%N.
Definition cls (ps : list (N -> bool)) : regex :=
  Char (fun c => existsb (fun p => p c) ps).

(** The match of [r] at [p], non-empty when [nonempty]. *)
Definition first_end (s : list N) (r : regex) (p : nat) (nonempty : bool)
  : option nat :=
  head (if nonempty then List.filter (fun e => (p <? e)%nat) (ends s r p)
        else ends s r p).

(** The leftmost match at or after [p]: [(start, end)]. *)
Fixpoint search_from (s : list N) (r : regex) (p : nat) (adv : bool)
    (fuel : nat) : option (nat * nat) :=
  match first_end s r p adv with
  | Some e => Some (p, e)
  | None =>
      match fuel with
      | 0 => None
      | S f => search_from s r (S p) false f
      end
  end.

(** [r.search(s)] *)
Definition search (r : regex) (s : list N) : option (nat * nat) :=
  search_from s r 0 false (length s).

Definition slice (s : list N) (i j : nat) : list N := take (j - i) (drop i s).

(** [r.sub(repl, s)]: after an empty match the next one must advance. *)
Fixpoint sub_loop (s : list N) (r : regex) (repl : list N) (p : nat)
    (adv : bool) (fuel : nat) : list N :=
  match fuel with
  | 0 => drop p s
  | S f =>
      match search_from s r p adv (length s - p) with
      | None => drop p s
      | Some (st, e) =>
          slice s p st ++ repl ++ sub_loop s r repl e (st =? e)%nat f
      end
  end.

Definition sub (r : regex) (repl : list N) (s : list N) : list N :=
  sub_loop s r repl 0 false (2 * length s + 2).

(** [r.split(s)] for a pattern without groups. *)
Fixpoint split_loop (s : list N) (r : regex) (p : nat) (adv : bool)
    (fuel : nat) : list (list N) :=
  match fuel with
  | 0 => [drop p s]
  | S f =>
      match search_from s r p adv (length s - p) with
      | None => [drop p s]
      | Some (st, e) => slice s p st :: split_loop s r e (st =? e)%nat f
      end
  end.

Definition split (r : regex) (s : list N) : list (list N) :=
  split_loop s r 0 false (2 * length s + 2).

(** [re.IGNORECASE] for a pattern whose cased letters are ASCII: a
    character matches a letter when its simple lowercase is that letter,
    or it is one of the two extra equivalents ([ı] of [i], [ſ] of [s]). *)
Definition ci_fold (c : N) : N :=
  (if range 65 90 c then c + 32
   else if (c =? 304) || (c =? 305) then 105
   else if c =? 383 then 115
   else if c =? 8490 then 107
   else c)%N.
Definition ci_lit (c : N) : regex := Char (fun d => (ci_fold d =? ci_fold c)%N).
Definition ci_str (l : list N) : regex := fold_right Seq Eps (map ci_lit l).

End Re.

(** [str.split(sep)] for a one-character separator. *)
Fixpoint split_on (sep : N) (s : pystr) : list pystr :=
  match s with
  | [] => [[]]
  | c :: s' =>
      if (c =? sep)%N then [] :: split_on sep s'
      else match split_on sep s' with
           | w :: ws => (c :: w) :: ws
           | [] => [[c]]
           end
  end.

(** [str.translate] with a one-to-one table. *)
Definition translate (tbl : list (N * N)) (s : pystr) : pystr :=
  map (fun c => match List.find (fun p => (fst p =? c)%N) tbl with
                | Some (_, d) => d
                | None => c
                end) s.

(* ------------------------------------------------------------------ *)
(** ** pdf_parser.py: patterns and [_parse_stores] *)

(** The first character of a literal. *)
Definition ch (s : string) : N := match u s with c :: _ => c | [] => 0%N end.

Definition seqs (l : list Re.regex) : Re.regex := fold_right Re.Seq Re.Eps l.

(** The alternatives of a ['|']-separated literal. *)
Definition words (s : string) : list Re.regex := map Re.str (split_on (ch "|") (u s)).

Section Parser.
Variable U : Unicode.

Definition w_char (c : N) : bool := uni_alnum U c || (c =? 95)%N.
Definition d_char (c : N) : bool := uni_decimal U c.

Definition _PREFS : string :=
  "北海道|青森|岩手|宮城|秋田|山形|福島|茨城|栃木|群馬|埼玉|千葉|東京|神奈川"
  ++ "|新潟|富山|石川|福井|山梨|長野|岐阜|静岡|愛知|三重|滋賀|京都|大阪|兵庫|奈良|和歌山"
  ++ "|鳥取|島根|岡山|広島|山口|徳島|香川|愛媛|高知"
  ++ "|福岡|佐賀|長崎|熊本|大分|宮崎|鹿児島|沖縄".

Definition digit_fw : Re.regex :=
  Re.cls [Re.range (ch "0") (ch "9"); Re.range (ch "０") (ch "９")].
Definition dash : Re.regex := Re.cls [Re.one_of (u "-－ー−")].

Definition ADDRESS_RE : Re.regex :=
  seqs [
    (* optional postal code: 〒, blanks, \d{3}, [-－], \d{4}, blanks *)
    Re.opt (seqs [Re.lit (ch "〒"); Re.star (Re.Char py_isspace);
                  Re.rep 3 (Re.Char d_char); Re.cls [Re.one_of (u "-－")];
                  Re.rep 4 (Re.Char d_char); Re.star (Re.Char py_isspace)]);
    (* (?:_PREFS)(?:都|道|府|県)? *)
    Re.alts (words _PREFS);
    Re.opt (Re.alts (words "都|道|府|県"));
    (* [一-鿿\w０-９0-9\s\-－ー−〜～丁目番地号の]+ *)
    Re.plus (Re.cls [Re.range 19968 40959; w_char;
                     Re.range (ch "０") (ch "９"); Re.range (ch "0") (ch "9");
                     py_isspace; Re.one_of (u "-－ー−〜～丁目番地号の")]);
    (* (?:[0-9０-９]+[-－ー−][0-9０-９]+(?:[-－ー−][0-9０-９]+)?)? *)
    Re.opt (seqs [Re.plus digit_fw; dash; Re.plus digit_fw;
                  Re.opt (seqs [dash; Re.plus digit_fw])]);
    (* (?:[　 \s]*(?:ビル|...|階|[0-9０-９]+F))? *)
    Re.opt (seqs [Re.star (Re.cls [Re.one_of (u "　 "); py_isspace]);
                  Re.alts (words "ビル|館|タワー|センター|プラザ|モール|SC|マンション|アベニュー|棟|階"
                           ++ [seqs [Re.plus digit_fw; Re.lit (ch "F")]])])
  ].

Definition POSTAL_RE : Re.regex :=
  seqs [Re.lit (ch "〒"); Re.star (Re.Char py_isspace);
        Re.rep 3 (Re.Char d_char); Re.cls [Re.one_of (u "-－")];
        Re.rep 4 (Re.Char d_char)].

Definition BULLET_RE : Re.regex :=
  seqs [Re.Bol;
        Re.star (Re.cls [py_isspace; Re.one_of (u "　")]);
        Re.plus (Re.cls [Re.one_of (u "●・■◆○◎▶▷➤▸►▻◉");
                         Re.range 9632 9727; Re.range (ch "①") (ch "⑳"); d_char]);
        Re.plus (Re.cls [py_isspace; Re.one_of (u "　.．、）)]】")])].

(** [.] : any character but a newline. *)
Definition any_char : Re.regex := Re.Char (fun c => negb (c =? 10)%N).

Definition SKIP_RE : Re.regex :=
  Re.alts [
    Re.ci_str (u "ページ"); Re.ci_str (u "page"); Re.ci_str (u "年");
    Re.ci_str (u "月"); Re.ci_str (u "日"); Re.ci_str (u "Copyright");
    Re.ci_str (u "http"); Re.ci_str (u "www."); Re.ci_str (u "@");
    seqs [Re.ci_str (u "株式会社"); Re.Star true any_char; Re.ci_str (u "株式会社")];
    Re.ci_str (u "目次"); Re.ci_str (u "contents"); Re.ci_str (u "はじめに");
    Re.ci_str (u "ご注意"); Re.ci_str (u "注意事項"); Re.ci_str (u "お問い合わせ");
    Re.ci_str (u "取扱説明")].

(** [\t|　{2,}| {3,}] *)
Definition SPLIT_RE : Re.regex :=
  Re.alts [Re.lit 9; Re.rep_min 2 (Re.lit (ch "　")); Re.rep_min 3 (Re.lit 32)].

(** [[ \t]+], [\n{3,}], [[\s　]{2,}], [\s] *)
Definition BLANKS_RE : Re.regex := Re.plus (Re.cls [Re.one_of [32; 9]%N]).
Definition NEWLINES_RE : Re.regex := Re.rep_min 3 (Re.lit 10).
Definition SPACES_RE : Re.regex :=
  Re.rep_min 2 (Re.cls [py_isspace; Re.one_of (u "　")]).
Definition SPACE_RE : Re.regex := Re.Char py_isspace.

Definition _normalize (text : pystr) : pystr :=
  let text := translate (combine (u "　０１２３４５６７８９") (u " 0123456789")) text in
  let text := Re.sub BLANKS_RE (u " ") text in
  let text := Re.sub NEWLINES_RE [10; 10]%N text in
  strip text.

Definition is_match (m : option (nat * nat)) : bool :=
  match m with Some _ => true | None => false end.

Definition store_record (name address company : pystr) : dict :=
  <[u "name" := VStr name]> (<[u "address" := VStr address]>
    (<[u "company" := VStr company]> ∅)).

(** [add_store]: the records it appends (none or one). *)
Definition add_store (company name address : pystr) : list dict :=
  let name := strip (Re.sub BULLET_RE [] name) in
  let name := strip (Re.sub SPACES_RE (u " ") name) in
  let address := strip address in
  if truthy name && truthy address
     && (2 <=? length name)%nat && (length name <=? 60)%nat
     && (5 <=? length address)%nat && (length address <=? 100)%nat
     && negb (is_match (Re.search SKIP_RE name))
  then [store_record name address company]
  else [].

(** [lines[i].strip()] *)
Definition line_at (lines : list pystr) (i : nat) : pystr :=
  strip (match lines !! i with Some l => l | None => [] end).

(** Pattern 1: the first part followed by a part with an address. *)
Fixpoint pattern1 (company : pystr) (parts : list pystr) : list dict :=
  match parts with
  | p :: ((q :: _) as rest) =>
      match Re.search ADDRESS_RE q with
      | Some (st, e) => add_store company p (Re.slice q st e)
      | None => pattern1 company rest
      end
  | _ => []
  end.

(** One iteration of the [while] loop, at line [i]: the records it appends. *)
Definition parse_line (company : pystr) (lines : list pystr) (i : nat)
  : list dict :=
  let line := line_at lines i in
  let parts := Re.split SPLIT_RE line in
  let r1 := if (2 <=? length parts)%nat then pattern1 company parts else [] in
  match Re.search ADDRESS_RE line with
  | Some (st, e) =>
      let address := Re.slice line st e in
      let before := strip (take st line) in
      let before := strip (Re.sub BULLET_RE [] before) in
      r1 ++
      (if truthy before && (2 <=? length before)%nat then
         add_store company before address
       else if (0 <? i)%nat then
         let prev := line_at lines (i - 1) in
         if truthy prev && negb (is_match (Re.search ADDRESS_RE prev))
            && negb (is_match (Re.search SKIP_RE prev))
         then add_store company prev address
         else []
       else [])
  | None =>
      r1 ++
      (if is_match (Re.search POSTAL_RE line) && (S i <? length lines)%nat then
         let next_line := line_at lines (S i) in
         match Re.search ADDRESS_RE (line ++ next_line) with
         | Some (st, e) =>
             let store_name := if (0 <? i)%nat then line_at lines (i - 1) else [] in
             add_store company store_name (Re.slice (line ++ next_line) st e)
         | None => []
         end
       else [])
  end.

Definition _parse_stores (text company : pystr) : list dict :=
  let text := _normalize text in
  let lines := split_on 10%N text in
  flat_map (parse_line company lines) (seq 0 (length lines)).

End Parser.

(** A table of the Unicode database restricted to the blocks the sample
    documents below use (ASCII, hiragana, katakana, CJK ideographs,
    full-width forms); it agrees with the database on those blocks. *)
Definition sample_ucd : Unicode := {|
  uni_alnum := fun c =>
    Re.range 48 57 c || Re.range 65 90 c || Re.range 97 122 c
    || Re.range 12353 12438 c || Re.range 12449 12538 c
    || Re.range 12540 12542 c || Re.range 19968 40959 c
    || Re.range 65296 65305 c || Re.range 65313 65338 c
    || Re.range 65345 65370 c;
  uni_decimal := fun c => Re.range 48 57 c || Re.range 65296 65305 c
|}.


(** The same stores with the prefecture repeated on every line. *)
Definition inline_layout : pystr :=
  u "東京都" ++ [10%N] ++
  u "渋谷店 東京都渋谷区道玄坂2-1-1 03-5555-6666" ++ [10%N] ++
  u "新宿店 東京都新宿区西新宿1-1-1 03-1111-2222" ++ [10%N] ++
  u "池袋店 東京都豊島区南池袋1-2-3 03-3333-4444".

(* ------------------------------------------------------------------ *)
(** ** pdf_parser.py: [extract_stores_from_pdf]; app.py: the extraction loop *)

(** The exceptions that reach the code, by class and [str(e)]. *)
Inductive exn :=
| ValueError (msg : pystr)
| RuntimeError (msg : pystr)
| OtherError (msg : pystr).

Definition exn_msg (e : exn) : pystr :=
  match e with ValueError m | RuntimeError m | OtherError m => m end.

Inductive result (A : Type) := Ok (a : A) | Err (e : exn).
Arguments Ok {A} a.
Arguments Err {A} e.

(** A PDF source, by what the calls on it return or raise:
    [source.name] (or [Path(source).stem]), [_read_bytes],
    [_extract_text_pdfplumber] and [_extract_text_ocr] on its bytes. *)
Record PdfSource := {
  raw_name : pystr;
  read_bytes : result unit;
  plumber_text : result pystr;
  ocr_text : result pystr
}.

Definition nl : pystr := [10%N].

Definition ocr_failed_msg (e : exn) : pystr :=
  u "テキスト抽出も OCR も失敗しました。" ++ nl ++
  u "OCRエラー: " ++ exn_msg e ++ nl ++
  u "Tesseract のインストールを確認してください:" ++ nl ++
  u "  macOS: brew install tesseract tesseract-lang" ++ nl ++
  u "  Ubuntu: sudo apt install tesseract-ocr tesseract-ocr-jpn".

Definition empty_text_msg : pystr := u "PDFからテキストを抽出できませんでした".

Section Extract.
Variable U : Unicode.

(** [\d{4}|\d+年度?|株主優待|優待|案内|ご利用|のご案内|PDF|\.pdf|_|\s] *)
Definition COMPANY_RE : Re.regex :=
  Re.alts ([Re.rep 4 (Re.Char (d_char U));
            seqs [Re.plus (Re.Char (d_char U)); Re.lit (ch "年"); Re.opt (Re.lit (ch "度"))]]
           ++ words "株主優待|優待|案内|ご利用|のご案内|PDF|.pdf|_"
           ++ [SPACE_RE]).

Definition company_of (raw : pystr) : pystr :=
  let c := strip (Re.sub COMPANY_RE [] raw) in
  if truthy c then c else raw.

(** Lines 227-252: whether OCR is called, and the text kept (or the
    [RuntimeError] raised when OCR fails and there is no text). *)
Definition acquire_text (plumber ocr : result pystr) : bool * result pystr :=
  let text := match plumber with Ok t => t | Err _ => [] end in
  let meaningful_chars := Re.sub SPACE_RE [] text in
  if (length meaningful_chars <? 200)%nat then
    (true,
     match ocr with
     | Ok text_ocr =>
         if (length meaningful_chars <? length (Re.sub SPACE_RE [] text_ocr))%nat
         then Ok text_ocr else Ok text
     | Err e =>
         if truthy text then Ok text else Err (RuntimeError (ocr_failed_msg e))
     end)
  else (false, Ok text).

Definition extract_stores_from_pdf (src : PdfSource) : result (list dict) :=
  let company := company_of (raw_name src) in
  match read_bytes src with
  | Err e => Err e
  | Ok _ =>
      match snd (acquire_text (plumber_text src) (ocr_text src)) with
      | Err e => Err e
      | Ok text =>
          if negb (truthy (strip text)) then Err (ValueError empty_text_msg)
          else Ok (_deduplicate (_parse_stores U text company))
      end
  end.

End Extract.

(** [str(n)] for a natural number. *)
Fixpoint digits_of (fuel n : nat) : pystr :=
  match fuel with
  | 0 => []
  | S f =>
      if (n <? 10)%nat then [N.of_nat (48 + n)]
      else digits_of f (n / 10) ++ [N.of_nat (48 + n mod 10)]
  end.
Definition py_str_nat (n : nat) : pystr := digits_of (S n) n.

(** [d.setdefault(k, v)] *)
Definition setdefault (k : pystr) (v : val) (d : dict) : dict :=
  match d !! k with Some _ => d | None => <[k := v]> d end.

(** The state of the loop: [all_stores], [company_labels], [errors]. *)
Record AppState := {
  all_stores : list dict;
  company_labels : list pystr;
  errors : list pystr
}.

Definition ok_label (label : pystr) (stores : list dict) : pystr :=
  if bool_decide (stores = []) then u "⚠️ " ++ label ++ u "（店舗情報なし）"
  else u "✅ " ++ label ++ u "（" ++ py_str_nat (length stores) ++ u " 件）".

Definition error_text (label : pystr) (e : exn) : pystr :=
  u "❌ " ++ label ++ u ": " ++ exn_msg e.

Definition error_label (label : pystr) : pystr := u "❌ " ++ label ++ u "（エラー）".

(** One iteration of the [for] loop of app.py, lines 144-157. *)
Definition extract_step (U : Unicode) (st : AppState) (item : PdfSource * pystr)
  : AppState :=
  let (source, label) := item in
  match extract_stores_from_pdf U source with
  | Ok stores =>
      let stores := map (setdefault (u "source_file") (VStr label)) stores in
      {| all_stores := all_stores st ++ stores;
         company_labels := company_labels st ++ [ok_label label stores];
         errors := errors st |}
  | Err e =>
      {| all_stores := all_stores st;
         company_labels := company_labels st ++ [error_label label];
         errors := errors st ++ [error_text label e] |}
  end.

Definition extract_all (U : Unicode) (sources : list (PdfSource * pystr)) : AppState :=
  fold_left (extract_step U) sources {| all_stores := []; company_labels := []; errors := [] |}.

(** The number of non-whitespace characters of a text. *)
Definition nonspace_count (t : pystr) : nat :=
  length (List.filter (fun c => negb (py_isspace c)) t).

(** What one source contributes to the final state of the loop. *)
Definition source_stores (U : Unicode) (item : PdfSource * pystr) : list dict :=
  match extract_stores_from_pdf U (fst item) with
  | Ok stores => map (setdefault (u "source_file") (VStr (snd item))) stores
  | Err _ => []
  end.

Definition source_errors (U : Unicode) (item : PdfSource * pystr) : list pystr :=
  match extract_stores_from_pdf U (fst item) with
  | Ok _ => []
  | Err e => [error_text (snd item) e]
  end.

Definition source_label (U : Unicode) (item : PdfSource * pystr) : pystr :=
  match extract_stores_from_pdf U (fst item) with
  | Ok stores =>
      ok_label (snd item) (map (setdefault (u "source_file") (VStr (snd item))) stores)
  | Err _ => error_label (snd item)
  end.

(** A record as [add_store] appends it. *)
Definition well_formed_record (company : pystr) (d : dict) : Prop :=
  exists name address,
    d = store_record name address company /\
    (2 <= length name <= 60)%nat /\ (5 <= length address <= 100)%nat /\
    Re.search SKIP_RE name = None.


(* ------------------------------------------------------------------ *)
(** ** app.py: the choice of provider *)

(** [max_workers] of [geocode_addresses] (geocoder.py, line 180). *)
Definition max_workers (provider : pystr) : nat :=
  if bool_decide (provider = u "google") then GOOGLE_MAX_WORKERS
  else NOMINATIM_MAX_WORKERS.

(** [use_google = gmaps_key is not None and len(gmaps_key) > 10] *)
Definition app_use_google (gmaps_key : option pystr) : bool :=
  match gmaps_key with Some k => (10 <? length k)%nat | None => false end.

(** [provider = "google" if use_google else "nominatim"] *)
Definition app_provider (gmaps_key : option pystr) : pystr :=
  if app_use_google gmaps_key then u "google" else u "nominatim".

(** [workers = 10 if use_google else 3] *)
Definition app_workers (gmaps_key : option pystr) : nat :=
  if app_use_google gmaps_key then 10%nat else 3%nat.

(** [api_key=gmaps_key if use_google else None] *)
Definition app_api_key (gmaps_key : option pystr) : option pystr :=
  if app_use_google gmaps_key then gmaps_key else None.

(* ------------------------------------------------------------------ *)
(** ** pdf_parser.py: [_extract_text_pdfplumber] *)

(** A page as pdfplumber gives it: [page.extract_text()] and
    [page.extract_tables()], each possibly [None]; a table is a list of
    rows, a row a list of cells, a cell a [str] or [None]. *)
Record Page := {
  page_text : option pystr;
  page_tables : option (list (list (list (option pystr))))
}.

(** [sep.join(parts)] *)
Definition join (sep : pystr) (parts : list pystr) : pystr :=
  match parts with
  | [] => []
  | p :: ps => p ++ flat_map (fun x => sep ++ x) ps
  end.

(** [str(c) if c else ""] *)
Definition cell_str (c : option pystr) : pystr :=
  match c with Some s => s | None => [] end.

(** ["\t".join(str(c) if c else "" for c in row)] *)
Definition row_line (row : list (option pystr)) : pystr :=
  join [9%N] (map cell_str row).

(** The text of one page: its text, then a line per non-empty table row. *)
Definition page_string (pg : Page) : pystr :=
  let text := match page_text pg with Some t => t | None => [] end in
  let tables := match page_tables pg with Some ts => ts | None => [] end in
  fold_left (fun text table =>
               fold_left (fun text row =>
                            match row with
                            | [] => text
                            | _ :: _ => text ++ [10%N] ++ row_line row
                            end) table text)
    tables text.

(** [_extract_text_pdfplumber], from the pages of the document. *)
Definition _extract_text_pdfplumber (pages : list Page) : pystr :=
  join [10%N] (map page_string pages).

(** The rows and cells of a page. *)
Definition page_rows (pg : Page) : list (list (option pystr)) :=
  concat (match page_tables pg with Some ts => ts | None => [] end).

Definition nonempty_row (row : list (option pystr)) : bool :=
  match row with [] => false | _ :: _ => true end.

(* ------------------------------------------------------------------ *)
(** ** The shape of [_normalize]'s output *)

(** A run of characters of [q] replaced by [repl], as [re.sub] does with
    the pattern [[...]+]; [in_run] tells whether the previous character
    was one of the run. *)
Fixpoint collapse (q : N -> bool) (repl : pystr) (in_run : bool) (l : pystr) : pystr :=
  match l with
  | [] => []
  | c :: l' =>
      if q c then (if in_run then collapse q repl true l' else repl ++ collapse q repl true l')
      else c :: collapse q repl false l'
  end.

(** The length of the run of [q] characters at the start of [l]. *)
Fixpoint run_len (q : N -> bool) (l : pystr) : nat :=
  match l with
  | c :: l' => if q c then S (run_len q l') else 0%nat
  | [] => 0%nat
  end.

(** No two consecutive spaces. *)
Fixpoint no_double_space (l : pystr) : bool :=
  match l with
  | a :: ((b :: _) as t) => negb ((a =? 32)%N && (b =? 32)%N) && no_double_space t
  | _ => true
  end.

(** Not a tab, an ideographic space or a full-width digit. *)
Definition clean_char (c : N) : bool :=
  negb (c =? 9)%N && negb (c =? 12288)%N && negb (Re.range 65296 65305 c).

(** The end positions of a repetition, with its fuel: [Re.ends] of
    [Re.Star] is [star_ends] at fuel [length s - i + 1]. *)
Definition star_ends (s : list N) (lz : bool) (r1 : Re.regex) : nat -> nat -> list nat :=
  fix iter (fuel : nat) (j : nat) : list nat :=
    match fuel with
    | 0 => [j]
    | S f =>
        let more :=
          flat_map (fun k => if (j <? k)%nat then iter f k else []) (Re.ends s r1 j) in
        if lz then j :: more else more ++ [j]
    end.

(** A text with no tab, ideographic space or full-width digit, and no two
    consecutive spaces. *)
Definition clean_text (l : pystr) : Prop :=
  Forall (fun c => clean_char c = true) l /\ no_double_space l = true.

(* ------------------------------------------------------------------ *)
(** ** app.py: [urllib_quote] *)

(** [urllib.parse.quote(str(s))] with its default [safe="/"]: the UTF-8
    bytes of [s], each kept when it is in [_ALWAYS_SAFE] (ASCII letters,
    digits and [_.-~]) or is ["/"], and written as ["%XX"] (upper-case
    hex) otherwise. *)
Definition _ALWAYS_SAFE (b : N) : bool :=
  Re.range 65 90 b || Re.range 97 122 b || Re.range 48 57 b || Re.one_of [95; 46; 45; 126]%N b.

Definition quote_safe (b : N) : bool := _ALWAYS_SAFE b || (b =? 47)%N.

(** One digit of ['{:02X}'.format(b)]. *)
Definition hex_upper (d : N) : N := if (d <? 10)%N then (48 + d)%N else (55 + d)%N.

Definition quote_byte (b : N) : pystr :=
  if quote_safe b then [b] else [37%N; hex_upper (N.shiftr b 4); hex_upper (N.land b 15)].

Definition urllib_quote (s : pystr) : pystr := flat_map quote_byte (Utf8.encode s).

(** A code point [str.encode()] accepts (not a surrogate). *)
Definition scalar_value (c : N) : Prop := (c < 55296 \/ 57343 < c < 1114112)%N.

(* ------------------------------------------------------------------ *)
(** ** app.py: company filter, distances and the list shown *)

(** [s.get("company", "不明")] *)
Definition company_get (s : dict) : val :=
  match s !! u "company" with Some v => v | None => VStr (u "不明") end.

(** [set(s.get("company", "不明") for s in all_stores)]; [sorted] only
    orders it, which neither the length test nor the membership test of
    the filter sees. *)
Definition all_companies (stores : list dict) : list val :=
  remove_dups (map company_get stores).

(** Lines 174-181, with [selected_companies] the multiselect's value. *)
Definition company_filter (all_stores : list dict) (selected_companies : list val)
  : list dict :=
  if (1 <? length (all_companies all_stores))%nat then
    List.filter (fun s => match s !! u "company" with
                          | Some v => bool_decide (v ∈ selected_companies)
                          | None => false
                          end) all_stores
  else all_stores.

(** Truthiness of a dict value ([0.0] and [""] are false). *)
Definition truthy_val (v : option val) : bool :=
  match v with
  | Some (VNum z) => negb (z =? 0)%Z
  | Some (VStr s) => truthy s
  | None => false
  end.

(** [geocoded = [s for s in filtered_stores if s.get("lat") and s.get("lng")]] *)
Definition geocoded_of (stores : list dict) : list dict :=
  List.filter (fun s => truthy_val (s !! u "lat") && truthy_val (s !! u "lng")) stores.

(** [s[k]] for a number; every store of [geocoded] has both keys as numbers. *)
Definition num_at (k : pystr) (s : dict) : Z :=
  match s !! k with Some (VNum z) => z | _ => 0%Z end.

(** [x.get("distance_km", 9999)] *)
Definition distance_of (s : dict) : Z :=
  match s !! u "distance_km" with Some (VNum z) => z | _ => 9999%Z end.

(** [list.sort(key=...)]: a stable sort, here by insertion (a stable sort's
    result is unique). *)
Fixpoint insert_by (key : dict -> Z) (x : dict) (l : list dict) : list dict :=
  match l with
  | [] => [x]
  | y :: l' => if (key x <=? key y)%Z then x :: l else y :: insert_by key x l'
  end.

Fixpoint sort_by (key : dict -> Z) (l : list dict) : list dict :=
  match l with [] => [] | x :: l' => insert_by key x (sort_by key l') end.

Section Display.
(** [haversine(lat1, lng1, lat2, lng2)], on the opaque floats. *)
Variable haversine : Z -> Z -> Z -> Z -> Z.

(** [s["distance_km"] = haversine(origin_lat, origin_lng, s["lat"], s["lng"])] *)
Definition with_distance (o : coord) (s : dict) : dict :=
  <[u "distance_km" := VNum (haversine o.1 o.2 (num_at (u "lat") s) (num_at (u "lng") s))]> s.

(** Lines 287-294: [display_stores] from [geocoded], the origin found
    for the current address (if any), [max_distance_km] and
    [max_results]. *)
Definition display_stores (origin : option coord) (geocoded : list dict)
    (max_distance_km : Z) (max_results : nat) : list dict :=
  let ds :=
    match origin with
    | Some o =>
        if negb (o.1 =? 0)%Z && negb (o.2 =? 0)%Z then
          List.filter (fun s => (distance_of s <=? max_distance_km)%Z)
            (sort_by distance_of (map (with_distance o) geocoded))
        else geocoded
    | None => geocoded
    end in
  take max_results ds.

End Display.

(* ------------------------------------------------------------------ *)
(** ** Sample inputs *)

(** A PDF whose embedded text is [inline_layout] and whose OCR fails. *)
Definition sample_source : PdfSource := {|
  raw_name := u "ABC"; read_bytes := Ok tt;
  plumber_text := Ok inline_layout; ocr_text := Err (OtherError []) |}.

(** A page with two lines of text and a table of three rows, one empty. *)
Definition sample_page : Page := {|
  page_text := Some (u "A" ++ [10%N] ++ u "B");
  page_tables := Some [[[Some (u "x"); None]; []; [Some (u "y")]]] |}.

(* ------------------------------------------------------------------ *)
(** ** Tactics *)

(** Linear arithmetic with division and remainder by constants. *)
Ltac narith := zify; Z.to_euclidean_division_equations; lia.

Ltac ltb_cases :=
  repeat match goal with
  | |- context [(?x <? ?y)%N] => destruct (N.ltb_spec x y); try (exfalso; narith)
  end.

(* ================================================================== *)
(** * Properties *)

Example md5_empty :
  MD5.hexdigest [] = u "d41d8cd98f00b204e9800998ecf8427e".
Proof. vm_compute. reflexivity. Qed.

Example md5_abc :
  MD5.hexdigest (Utf8.encode (u "abc")) = u "900150983cd24fb0d6963f7d28e17f72".
Proof. vm_compute. reflexivity. Qed.

Example cache_key_sample :
  _cache_key (u "東京都渋谷区") (u "nominatim")
  = u "e0026800f2aa8e95387b49bdce607377".
Proof. vm_compute. reflexivity. Qed.


(* ------------------------------------------------------------------ *)
(** ** Geocoder: helper lemmas *)

Lemma request_eq (P : Providers) (w : World) (a : pystr) (k : option pystr)
  (p : pystr) :
  request P w a k p = (answer P a k p, log w (request_event a k p)).
Proof.
  unfold request, answer, request_event, _google_request, _nominatim_request.
  destruct k as [k|]; [destruct (use_google (Some k) p)|]; reflexivity.
Qed.


(* ------------------------------------------------------------------ *)
(** ** C1: resolution makes a single attempt *)

(** C1 (counterexample): the free provider resolves the ward-level form
    "東京都渋谷区" of the address "東京都渋谷区渋谷2-1-1 ABCビル3F", yet
    [geocode_single] returns [None] for the full address after exactly one
    request (for the full address) and no retry with a coarser form. *)
Lemma C1_no_progressive_fallback :
  answer ward_only (u "東京都渋谷区") None nominatim = Some shibuya_coord /\
  fst (geocode_single ward_only empty_world shibuya_full None nominatim) = None /\
  events (snd (geocode_single ward_only empty_world shibuya_full None nominatim))
  = [EvCacheGet (_cache_key shibuya_full nominatim);
     EvNominatim (_ensure_japan shibuya_full)].
Proof. split; [|split]; vm_compute; reflexivity. Qed.

(** C1 (amended): on a miss of both the [lru_cache] and the SQLite cache, a
    non-empty address sent to the free provider is resolved by exactly one
    request, for the literal address (with " 日本" appended when it names
    neither 日本 nor Japan); [geocode_single] returns that request's answer,
    [None] when it fails, and writes the answer to the cache only when it is
    a coordinate.  No coarser form of the address is ever tried. *)
Theorem geocode_single_single_attempt (P : Providers) (w : World)
  (address : pystr) (api_key : option pystr) (provider : pystr) :
  List.find (fun e => lru_key_eq (fst e) (address, api_key, provider)) (lru w)
    = None ->
  truthy address = true ->
  db w !! _cache_key address provider = None ->
  use_google api_key provider = false ->
  fst (geocode_single P w address api_key provider)
    = nominatim_answer P (_ensure_japan address) /\
  events (snd (geocode_single P w address api_key provider))
    = events w ++ [EvCacheGet (_cache_key address provider);
                   EvNominatim (_ensure_japan address)]
      ++ match nominatim_answer P (_ensure_japan address) with
         | Some c => [EvCacheSet (_cache_key address provider) c]
         | None => []
         end.
Proof.
  intros Hlru Hne Hdb Hg.
  unfold geocode_single. rewrite Hlru.
  unfold geocode_single_body. rewrite Hne. simpl negb. cbv iota.
  unfold _cache_get. rewrite Hdb.
  assert (Hr : request P (log w (EvCacheGet (_cache_key address provider)))
                 address api_key provider
               = _nominatim_request P
                   (log w (EvCacheGet (_cache_key address provider))) address).
  { unfold request. destruct api_key as [k|]; [rewrite Hg|]; reflexivity. }
  rewrite Hr. unfold _nominatim_request.
  destruct (nominatim_answer P (_ensure_japan address)) as [c|]; simpl;
    rewrite <- !app_assoc; split; reflexivity.
Qed.

Lemma C1_single_attempt_witness :
  (List.find (fun e => lru_key_eq (fst e) (shibuya_full, None, nominatim))
     (lru empty_world) = None /\
   truthy shibuya_full = true /\
   db empty_world !! _cache_key shibuya_full nominatim = None /\
   use_google None nominatim = false) /\
  (fst (geocode_single ward_only empty_world shibuya_full None nominatim)
     = nominatim_answer ward_only (_ensure_japan shibuya_full) /\
   events (snd (geocode_single ward_only empty_world shibuya_full None nominatim))
     = events empty_world
       ++ [EvCacheGet (_cache_key shibuya_full nominatim);
           EvNominatim (_ensure_japan shibuya_full)]
       ++ match nominatim_answer ward_only (_ensure_japan shibuya_full) with
          | Some c => [EvCacheSet (_cache_key shibuya_full nominatim) c]
          | None => []
          end).
Proof.
  split.
  - split; [reflexivity|split; [vm_compute; reflexivity|split; reflexivity]].
  - apply geocode_single_single_attempt;
      [reflexivity | vm_compute; reflexivity | reflexivity | reflexivity].
Defined.

(* ------------------------------------------------------------------ *)
(** ** Geocoder: the phases of [geocode_addresses] *)

Lemma assign_db (w : World) rs c : db (assign w rs c) = db w.
Proof. reflexivity. Qed.










(* ------------------------------------------------------------------ *)
(** ** C2: failed lookups are not cached *)




(* ------------------------------------------------------------------ *)
(** ** C5: the cache key *)

Lemma le_bytes_4 (x : Z) :
  MD5.le_bytes x 4 = [Z.land (Z.shiftr x 0) 255; Z.land (Z.shiftr x 8) 255;
                      Z.land (Z.shiftr x 16) 255; Z.land (Z.shiftr x 24) 255].
Proof. reflexivity. Qed.

Lemma hexdigest_length (m : list N) : length (MD5.hexdigest m) = 32%nat.
Proof.
  unfold MD5.hexdigest, MD5.digest. cbv zeta. rewrite !le_bytes_4. reflexivity.
Qed.

(** C5 (counterexample): the digest input [f"{provider}:{address}"] is the
    same string "a:b:c" for the distinct pairs (provider "a:b", address "c")
    and (provider "a", address "b:c"), so their keys are equal. *)
Lemma C5_key_collision :
  (u "a:b", u "c") <> (u "a", u "b:c") /\
  _cache_key (u "c") (u "a:b") = _cache_key (u "b:c") (u "a").
Proof. split; [vm_compute; discriminate | reflexivity]. Qed.

(** C5 (amended): the key is the 32-hex-digit MD5 digest of the UTF-8 bytes
    of [f"{provider}:{address}"], a function of the pair; for the code's two
    providers "nominatim" and "google", distinct pairs have distinct digest
    inputs, so their keys can only coincide through an MD5 collision. *)
Theorem cache_key_inputs_distinct (a a' p p' : pystr) :
  In p [nominatim; google] -> In p' [nominatim; google] ->
  (p, a) <> (p', a') ->
  cache_key_input a p <> cache_key_input a' p' /\
  _cache_key a p = MD5.hexdigest (Utf8.encode (cache_key_input a p)) /\
  length (_cache_key a p) = 32%nat.
Proof.
  intros Hp Hp' Hne. split; [|split; [reflexivity|apply hexdigest_length]].
  unfold cache_key_input. intros H.
  destruct Hp as [<-|[<-|[]]]; destruct Hp' as [<-|[<-|[]]];
    try (vm_compute in H; discriminate);
    apply app_inv_head in H; apply app_inv_head in H; subst; apply Hne; reflexivity.
Qed.

Lemma C5_inputs_distinct_witness :
  (In nominatim [nominatim; google] /\ In google [nominatim; google] /\
   (nominatim, u "東京都渋谷区") <> (google, u "東京都渋谷区")) /\
  (cache_key_input (u "東京都渋谷区") nominatim
     <> cache_key_input (u "東京都渋谷区") google /\
   _cache_key (u "東京都渋谷区") nominatim
     = MD5.hexdigest (Utf8.encode (cache_key_input (u "東京都渋谷区") nominatim)) /\
   length (_cache_key (u "東京都渋谷区") nominatim) = 32%nat).
Proof.
  split.
  - split; [left; reflexivity|split; [right; left; reflexivity|]].
    vm_compute. discriminate.
  - apply cache_key_inputs_distinct;
      [left; reflexivity | right; left; reflexivity | vm_compute; discriminate].
Defined.

(* ------------------------------------------------------------------ *)
(** ** Geocoder: grouping by address *)




Lemma in_group_setdefault (k a : pystr) (r x : nat) rs g :
  In (a, rs) (setdefault_append k r g) ->
  (exists rs0, In (a, rs0) g /\ (rs = rs0 \/ (a = k /\ rs = rs0 ++ [r])))
  \/ (a = k /\ rs = [r]).
Proof.
  induction g as [|[k' rs'] g IH]; simpl; intros H.
  - destruct H as [H|[]]. inversion H; subst. right. auto.
  - case_bool_decide as Hk; subst.
    + destruct H as [H|H].
      * inversion H; subst. left. exists rs'. split; [left; reflexivity|]. right. auto.
      * left. exists rs. split; [right; exact H|]. left. reflexivity.
    + destruct H as [H|H].
      * inversion H; subst. left. exists rs. split; [left; reflexivity|]. left. reflexivity.
      * destruct (IH H) as [[rs0 [Hin Hrs]]|Hr].
        { left. exists rs0. split; [right; exact Hin|exact Hrs]. }
        { right. exact Hr. }
Qed.





(* ------------------------------------------------------------------ *)
(** ** Geocoder: assignments to the shared dicts *)








Lemma heap_assign (w : World) rs c :
  heap (assign w rs c) = assign_steps (heap w) [(rs, c)].
Proof. reflexivity. Qed.













(* ------------------------------------------------------------------ *)
(** ** C9: one lookup per distinct address, order-independent results *)



(* ------------------------------------------------------------------ *)
(** ** C10: what [geocode_addresses] changes in the records *)




(* ------------------------------------------------------------------ *)
(** ** C4: request rate of the free provider *)

(** C4: with Nominatim's pool of [NOMINATIM_MAX_WORKERS] = 3 threads and a
    per-thread delay of 0.4 s, the first three requests of any batch of at
    least three uncached addresses are all sent at 0.4 s, so three requests
    fall within one second, above the limit of one request per second. *)
Theorem nominatim_three_requests_in_one_second (l1 l2 l3 : Z) (rest : list Z) :
  (0 <= l1)%Z -> (0 <= l2)%Z -> (0 <= l3)%Z ->
  List.firstn 3 (Schedule.request_times NOMINATIM_MAX_WORKERS
                   NOMINATIM_THREAD_DELAY_MS (l1 :: l2 :: l3 :: rest))
  = [400; 400; 400]%Z /\
  (3 <= Schedule.requests_in_window
          (Schedule.request_times NOMINATIM_MAX_WORKERS NOMINATIM_THREAD_DELAY_MS
             (l1 :: l2 :: l3 :: rest)) 400)%nat.
Proof.
  intros H1 H2 H3.
  unfold Schedule.request_times, NOMINATIM_MAX_WORKERS, NOMINATIM_THREAD_DELAY_MS,
    Schedule.requests_in_window.
  repeat (simpl; match goal with
                 | |- context [(?a <=? ?b)%Z] => destruct (Z.leb_spec a b); try lia
                 end).
  all: simpl; split; [reflexivity | lia].
Qed.

Lemma C4_three_requests_witness :
  ((0 <= 100)%Z /\ (0 <= 100)%Z /\ (0 <= 100)%Z) /\
  List.firstn 3 (Schedule.request_times NOMINATIM_MAX_WORKERS
                   NOMINATIM_THREAD_DELAY_MS [100; 100; 100]%Z)
  = [400; 400; 400]%Z /\
  (3 <= Schedule.requests_in_window
          (Schedule.request_times NOMINATIM_MAX_WORKERS NOMINATIM_THREAD_DELAY_MS
             [100; 100; 100]%Z) 400)%nat.
Proof.
  split; [lia|].
  apply (nominatim_three_requests_in_one_second 100 100 100 []); lia.
Defined.

(* ------------------------------------------------------------------ *)
(** ** C6: deduplication *)

Lemma dedup_loop_snoc seen l s :
  dedup_loop seen (l ++ [s]) =
  dedup_loop seen l ++
    (if bool_decide (dedup_key s ∈ seen ++ map dedup_key l) then [] else [s]).
Proof.
  revert seen; induction l as [|x l IH]; intros seen; simpl.
  - rewrite app_nil_r. destruct (bool_decide (dedup_key s ∈ seen)); reflexivity.
  - case_bool_decide as Hx.
    + rewrite IH. f_equal.
      assert (E : dedup_key s ∈ seen ++ map dedup_key l <->
                  dedup_key s ∈ seen ++ dedup_key x :: map dedup_key l).
      { rewrite !elem_of_app, elem_of_cons.
        split; [tauto|]. intros [H|[H|H]]; [tauto| |tauto].
        left. rewrite H. exact Hx. }
      case_bool_decide as Ha; case_bool_decide as Hb; try reflexivity;
        exfalso; tauto.
    + simpl. rewrite IH. do 2 f_equal.
      assert (E : dedup_key s ∈ (dedup_key x :: seen) ++ map dedup_key l <->
                  dedup_key s ∈ seen ++ dedup_key x :: map dedup_key l).
      { rewrite !elem_of_app, !elem_of_cons. tauto. }
      case_bool_decide as Ha; case_bool_decide as Hb; try reflexivity;
        exfalso; tauto.
Qed.

Lemma dedup_loop_fresh seen l :
  NoDup (map dedup_key (dedup_loop seen l)) /\
  Forall (fun y => dedup_key y ∉ seen) (dedup_loop seen l).
Proof.
  revert seen; induction l as [|x l IH]; intros seen; simpl.
  - split; constructor.
  - case_bool_decide as Hx; [apply IH|].
    destruct (IH (dedup_key x :: seen)) as [Hn Hf].
    split.
    + simpl. constructor; [|exact Hn].
      intros Hin. apply list_elem_of_fmap in Hin as [y [Hy Hin]].
      apply List.Forall_forall with (x := y) in Hf;
        [|apply list_elem_of_In; exact Hin].
      apply Hf. rewrite <- Hy. left.
    + constructor; [exact Hx|].
      eapply List.Forall_impl; [|exact Hf].
      intros y Hy Hs. apply Hy. right. exact Hs.
Qed.

Lemma dedup_loop_covers seen l k :
  k ∈ map dedup_key l -> k ∈ seen \/ k ∈ map dedup_key (dedup_loop seen l).
Proof.
  revert seen; induction l as [|x l IH]; intros seen Hk; simpl in *.
  - inversion Hk.
  - apply elem_of_cons in Hk as [->|Hk].
    + case_bool_decide as Hx; [left; exact Hx|].
      right. simpl. left.
    + case_bool_decide as Hx; [apply IH; exact Hk|].
      destruct (IH (dedup_key x :: seen) Hk) as [Hs|Hs].
      * apply elem_of_cons in Hs as [->|Hs].
        -- right. simpl. left.
        -- left. exact Hs.
      * right. simpl. right. exact Hs.
Qed.

Lemma dedup_loop_sublist seen l : dedup_loop seen l `sublist_of` l.
Proof.
  revert seen; induction l as [|x l IH]; intros seen; simpl.
  - constructor.
  - case_bool_decide.
    + apply sublist_cons, IH.
    + apply sublist_skip, IH.
Qed.

(** C6: the output of [_deduplicate] has pairwise distinct
    (company, name, address) triples; it is built one input record at a
    time, in input order, and a record is appended exactly when its triple
    does not occur in any earlier record (so the first occurrence survives
    and later ones are dropped); every triple of the input is kept, and the
    output is a sublist of the input (relative order preserved). *)
Theorem deduplicate_first_occurrence_stable (stores : list dict) :
  NoDup (map dedup_key (_deduplicate stores)) /\
  (forall l s,
     _deduplicate (l ++ [s]) =
     _deduplicate l ++
       (if bool_decide (dedup_key s ∈ map dedup_key l) then [] else [s])) /\
  (forall k, k ∈ map dedup_key stores -> k ∈ map dedup_key (_deduplicate stores)) /\
  _deduplicate stores `sublist_of` stores.
Proof.
  unfold _deduplicate. split; [|split; [|split]].
  - apply dedup_loop_fresh.
  - intros l s. apply dedup_loop_snoc.
  - intros k Hk. destruct (dedup_loop_covers [] stores k Hk) as [H|H];
      [inversion H | exact H].
  - apply dedup_loop_sublist.
Qed.

(* ------------------------------------------------------------------ *)
(** ** [re.sub] with a one-character class and an empty replacement *)

Section SubChar.
Variable s : list N.
Variable q : N -> bool.

Lemma first_end_char p adv :
  Re.first_end s (Re.Char q) p adv =
  match s !! p with Some c => if q c then Some (S p) else None | None => None end.
Proof.
  unfold Re.first_end; simpl.
  destruct (s !! p) as [c|]; [destruct (q c)|]; destruct adv; simpl;
    try reflexivity.
  rewrite (proj2 (Nat.ltb_lt p (S p))) by lia. reflexivity.
Qed.

Lemma search_char_past_end n p adv :
  (length s <= p)%nat -> Re.search_from s (Re.Char q) p adv n = None.
Proof.
  revert p adv; induction n as [|n IH]; intros p adv Hp; simpl;
    rewrite first_end_char, (lookup_ge_None_2 s p) by lia;
    [reflexivity | apply IH; lia].
Qed.

Lemma search_char_some n p adv st e :
  Re.search_from s (Re.Char q) p adv n = Some (st, e) ->
  e = S st /\ (p <= st)%nat /\
  (exists c, s !! st = Some c /\ q c = true) /\
  (forall k c, (p <= k < st)%nat -> s !! k = Some c -> q c = false).
Proof.
  revert p adv; induction n as [|n IH]; intros p adv H; simpl in H;
    rewrite first_end_char in H; destruct (s !! p) as [c|] eqn:Ec;
    try destruct (q c) eqn:Eq; try discriminate H.
  1,2: inversion H; subst; repeat split; try lia; eauto.
  - destruct (IH (S p) false H) as [He [Hp [Hc Hk]]].
    repeat split; try lia; [exact Hc|].
    intros k c' Hk' Hc'. destruct (decide (k = p)) as [->|Hne].
    + rewrite Ec in Hc'. injection Hc' as <-. exact Eq.
    + apply (Hk k c'); [lia | exact Hc'].
  - destruct (IH (S p) false H) as [He [Hp [Hc Hk]]].
    repeat split; try lia; [exact Hc|].
    intros k c' Hk' Hc'. destruct (decide (k = p)) as [->|Hne].
    + rewrite Ec in Hc'. discriminate.
    + apply (Hk k c'); [lia | exact Hc'].
Qed.

Lemma search_char_none n p adv :
  (length s <= p + n)%nat ->
  Re.search_from s (Re.Char q) p adv n = None ->
  forall k c, (p <= k)%nat -> s !! k = Some c -> q c = false.
Proof.
  revert p adv; induction n as [|n IH]; intros p adv Hl H; simpl in H;
    rewrite first_end_char in H; destruct (s !! p) as [c|] eqn:Ec;
    try destruct (q c) eqn:Eq; try discriminate H.
  - intros k c' Hk Hc'. pose proof (lookup_lt_Some _ _ _ Hc').
    assert (k = p) as -> by lia. rewrite Ec in Hc'. congruence.
  - intros k c' Hk Hc'. pose proof (lookup_lt_Some _ _ _ Hc').
    apply lookup_ge_None_1 in Ec. lia.
  - intros k c' Hk Hc'. destruct (decide (k = p)) as [->|Hne].
    + rewrite Ec in Hc'. injection Hc' as <-. exact Eq.
    + apply (IH (S p) false ltac:(lia) H k c'); [lia | exact Hc'].
  - intros k c' Hk Hc'. destruct (decide (k = p)) as [->|Hne].
    + rewrite Ec in Hc'. discriminate.
    + apply (IH (S p) false ltac:(lia) H k c'); [lia | exact Hc'].
Qed.

Lemma filter_all_true {A} (f : A -> bool) (l : list A) :
  (forall x, x ∈ l -> f x = true) -> List.filter f l = l.
Proof.
  induction l as [|x l IH]; intros H; simpl; [reflexivity|].
  rewrite (H x) by left. f_equal. apply IH. intros y Hy. apply H. right. exact Hy.
Qed.

Lemma sub_loop_char f p adv :
  (length s - p < f)%nat ->
  Re.sub_loop s (Re.Char q) [] p adv f = List.filter (fun c => negb (q c)) (drop p s).
Proof.
  revert p adv; induction f as [|f IH]; intros p adv Hf; [lia|]. simpl.
  destruct (Re.search_from s (Re.Char q) p adv (length s - p)) as [[st e]|] eqn:Es.
  - destruct (search_char_some _ _ _ _ _ Es) as [-> [Hp [[c [Hc Hq]] Hk]]].
    rewrite IH by (apply lookup_lt_Some in Hc; lia).
    unfold Re.slice.
    rewrite <- (take_drop (st - p) (drop p s)) at 2.
    rewrite drop_drop, List.filter_app.
    replace (p + (st - p))%nat with st by lia.
    rewrite (drop_S s c st Hc). simpl. rewrite Hq. simpl.
    rewrite (filter_all_true _ (take (st - p) (drop p s))); [reflexivity|].
    intros x Hx. apply list_elem_of_lookup in Hx as [j Hj].
    rewrite lookup_take_Some in Hj. destruct Hj as [Hj Hlt].
    rewrite lookup_drop in Hj. rewrite (Hk (p + j)%nat x); [reflexivity | lia | exact Hj].
  - symmetry. apply filter_all_true.
    intros x Hx. apply list_elem_of_lookup in Hx as [j Hj].
    rewrite lookup_drop in Hj.
    rewrite (search_char_none (length s - p) p adv ltac:(lia) Es (p + j)%nat x); [reflexivity | lia | exact Hj].
Qed.

Lemma sub_char_empty :
  Re.sub (Re.Char q) [] s = List.filter (fun c => negb (q c)) s.
Proof. unfold Re.sub. rewrite sub_loop_char by lia. reflexivity. Qed.

End SubChar.

(* ------------------------------------------------------------------ *)
(** ** C7: OCR fallback *)

Lemma meaningful_chars_count t :
  length (Re.sub SPACE_RE [] t) = nonspace_count t.
Proof. unfold SPACE_RE, nonspace_count. rewrite sub_char_empty. reflexivity. Qed.

(** C7: with [text] the embedded text (empty when pdfplumber raises),
    OCR is called exactly when [text] has fewer than 200 non-whitespace
    characters; then, when OCR returns a text, the one kept is the OCR
    text if it has strictly more non-whitespace characters and the
    embedded text otherwise; with 200 or more, the embedded text is kept. *)
Theorem acquire_text_ocr_fallback (plumber ocr : result pystr) :
  let text := match plumber with Ok t => t | Err _ => [] end in
  fst (acquire_text plumber ocr) = (nonspace_count text <? 200)%nat /\
  (forall text_ocr, ocr = Ok text_ocr -> (nonspace_count text < 200)%nat ->
     snd (acquire_text plumber ocr) =
     Ok (if (nonspace_count text <? nonspace_count text_ocr)%nat
         then text_ocr else text)) /\
  ((200 <= nonspace_count text)%nat -> snd (acquire_text plumber ocr) = Ok text).
Proof.
  intros text. unfold acquire_text. fold text.
  rewrite !meaningful_chars_count.
  split; [|split].
  - destruct (nonspace_count text <? 200)%nat; reflexivity.
  - intros t -> Hlt. rewrite (proj2 (Nat.ltb_lt _ _) Hlt). simpl.
    rewrite meaningful_chars_count.
    destruct (nonspace_count text <? nonspace_count t)%nat; reflexivity.
  - intros Hge. rewrite (proj2 (Nat.ltb_ge _ _) Hge). reflexivity.
Qed.

(* ------------------------------------------------------------------ *)
(** ** C8: empty documents, and the extraction loop of app.py *)

Lemma lstrip_all_space t : Forall (fun c => py_isspace c = true) t -> lstrip t = [].
Proof.
  induction 1 as [|c t Hc _ IH]; simpl; [reflexivity|]. rewrite Hc. exact IH.
Qed.

Lemma nonspace_count_zero t :
  nonspace_count t = 0%nat -> Forall (fun c => py_isspace c = true) t.
Proof.
  unfold nonspace_count. induction t as [|c t IH]; simpl; intros H; [constructor|].
  destruct (py_isspace c) eqn:Ec; simpl in H; [|discriminate].
  constructor; [exact Ec | apply IH, H].
Qed.

Lemma strip_nonspace_zero t : nonspace_count t = 0%nat -> strip t = [].
Proof.
  intros H. unfold strip. rewrite (lstrip_all_space t (nonspace_count_zero t H)).
  reflexivity.
Qed.

Lemma extract_step_eq U st item :
  extract_step U st item =
  {| all_stores := all_stores st ++ source_stores U item;
     company_labels := company_labels st ++ [source_label U item];
     errors := errors st ++ source_errors U item |}.
Proof.
  destruct item as [src label].
  unfold extract_step, source_stores, source_label, source_errors; simpl.
  destruct (extract_stores_from_pdf U src); rewrite ?app_nil_r; reflexivity.
Qed.

Lemma fold_extract_step U sources st :
  fold_left (extract_step U) sources st =
  {| all_stores := all_stores st ++ flat_map (source_stores U) sources;
     company_labels := company_labels st ++ map (source_label U) sources;
     errors := errors st ++ flat_map (source_errors U) sources |}.
Proof.
  revert st; induction sources as [|item sources IH]; intros st; simpl.
  - rewrite !app_nil_r. destruct st; reflexivity.
  - rewrite IH, extract_step_eq. simpl. rewrite <- !app_assoc. reflexivity.
Qed.

(** C8: a source whose bytes are read and whose acquired text has no
    non-whitespace character makes [extract_stores_from_pdf] raise the
    [ValueError] "PDFからテキストを抽出できませんでした"; and the loop of
    app.py runs every source whatever the others do: the stores it keeps
    are those of the sources that returned, in order, the errors it
    reports are one per source that raised, in order, and every source
    gets one label. *)
Theorem extract_empty_error_isolated (U : Unicode) :
  (forall src text,
     read_bytes src = Ok tt ->
     snd (acquire_text (plumber_text src) (ocr_text src)) = Ok text ->
     nonspace_count text = 0%nat ->
     extract_stores_from_pdf U src = Err (ValueError empty_text_msg)) /\
  (forall sources,
     all_stores (extract_all U sources) = flat_map (source_stores U) sources /\
     errors (extract_all U sources) = flat_map (source_errors U) sources /\
     company_labels (extract_all U sources) = map (source_label U) sources).
Proof.
  split.
  - intros src text Hr Ha H0. unfold extract_stores_from_pdf.
    rewrite Hr, Ha, (strip_nonspace_zero text H0). reflexivity.
  - intros sources. unfold extract_all. rewrite fold_extract_step. simpl.
    repeat split.
Qed.

(* ------------------------------------------------------------------ *)
(** ** C3: the records of [_parse_stores] *)

Section ParseRecords.
Variable U : Unicode.

Lemma add_store_records company name address d :
  d ∈ add_store U company name address -> well_formed_record company d.
Proof.
  unfold add_store.
  set (n := strip (Re.sub SPACES_RE (u " ") (strip (Re.sub (BULLET_RE U) [] name)))).
  set (a := strip address).
  destruct (truthy n && truthy a && (2 <=? length n)%nat && (length n <=? 60)%nat
            && (5 <=? length a)%nat && (length a <=? 100)%nat
            && negb (is_match (Re.search SKIP_RE n))) eqn:E;
    intros Hd; [|inversion Hd].
  apply list_elem_of_singleton in Hd as ->.
  rewrite !andb_true_iff in E.
  destruct E as [[[[[[_ _] H1] H2] H3] H4] H5].
  apply Nat.leb_le in H1, H2, H3, H4.
  exists n, a. repeat split; try lia.
  destruct (Re.search SKIP_RE n); [discriminate | reflexivity].
Qed.

Lemma pattern1_records company parts d :
  d ∈ pattern1 U company parts -> well_formed_record company d.
Proof.
  induction parts as [|p parts IH]; simpl; [intros H; inversion H|].
  destruct parts as [|q rest]; [intros H; inversion H|].
  destruct (Re.search (ADDRESS_RE U) q) as [[st e]|].
  - apply add_store_records.
  - exact IH.
Qed.

Lemma parse_line_records company lines i d :
  d ∈ parse_line U company lines i -> well_formed_record company d.
Proof.
  unfold parse_line.
  intros Hd.
  destruct (Re.search (ADDRESS_RE U) (line_at lines i)) as [[st e]|];
    apply elem_of_app in Hd as [Hd|Hd].
  1,3: destruct (2 <=? _)%nat; [eapply pattern1_records; exact Hd | inversion Hd].
  all: repeat match type of Hd with
         | context [if ?b then _ else _] => destruct b
         | context [match ?m with Some _ => _ | None => _ end] => destruct m as [[? ?]|]
         end;
       try (inversion Hd; fail);
       eapply add_store_records; exact Hd.
Qed.

End ParseRecords.





(* ------------------------------------------------------------------ *)
(** ** Extra: [geocode_single] and its [lru_cache] *)

Lemma geocode_single_body_lru (P : Providers) (w : World) a k p :
  lru (snd (geocode_single_body P w a k p)) = lru w.
Proof.
  unfold geocode_single_body, _cache_get.
  destruct (negb (truthy a)); [reflexivity|].
  remember (_cache_key a p) as key eqn:Hkey. cbn.
  destruct (db w !! key); [reflexivity|].
  rewrite request_eq. destruct (answer P a k p); reflexivity.
Qed.

Lemma filter_lru_nokey (k : pystr * option pystr * pystr)
  (l : list ((pystr * option pystr * pystr) * option coord)) :
  List.find (fun e => lru_key_eq (fst e) k) l = None ->
  List.filter (fun e => negb (lru_key_eq (fst e) k)) l = l.
Proof.
  induction l as [|e l IH]; simpl; [reflexivity|].
  destruct (lru_key_eq (fst e) k); simpl; [discriminate|].
  intros H. f_equal. apply IH, H.
Qed.

Lemma find_lru_filter (k : pystr * option pystr * pystr)
  (l : list ((pystr * option pystr * pystr) * option coord)) :
  List.find (fun e => lru_key_eq (fst e) k)
    (List.filter (fun e => negb (lru_key_eq (fst e) k)) l) = None.
Proof.
  induction l as [|e l IH]; simpl; [reflexivity|].
  destruct (lru_key_eq (fst e) k) eqn:E; simpl; [exact IH|].
  rewrite E. exact IH.
Qed.

Lemma find_lru_take (k : pystr * option pystr * pystr) n
  (l : list ((pystr * option pystr * pystr) * option coord)) :
  List.find (fun e => lru_key_eq (fst e) k) l = None ->
  List.find (fun e => lru_key_eq (fst e) k) (List.firstn n l) = None.
Proof.
  revert n. induction l as [|e l IH]; intros n H; destruct n; simpl; try reflexivity.
  simpl in H. destruct (lru_key_eq (fst e) k); [discriminate|]. apply IH, H.
Qed.

Lemma lru_key_eq_refl (k : pystr * option pystr * pystr) : lru_key_eq k k = true.
Proof. unfold lru_key_eq. apply bool_decide_eq_true. reflexivity. Qed.

Lemma lru_key_eq_true k k' : lru_key_eq k k' = true -> k = k'.
Proof. unfold lru_key_eq. apply bool_decide_eq_true. Qed.







(** An immediately repeated call of [geocode_single] with the same
    arguments returns the same result, found in the [lru_cache], and leaves
    the world unchanged: no cache read, no request and no write, even when
    the first call found nothing ([None]). *)
Theorem geocode_single_repeat (P : Providers) (w : World) (address : pystr)
  (api_key : option pystr) (provider : pystr) (r : option coord) (w1 : World) :
  geocode_single P w address api_key provider = (r, w1) ->
  geocode_single P w1 address api_key provider = (r, w1).
Proof.
  unfold geocode_single. set (k := (address, api_key, provider)).
  destruct (List.find (fun e => lru_key_eq (fst e) k) (lru w)) as [[k0 r0]|] eqn:Ef.
  - intros H. injection H as <- <-. simpl. rewrite lru_key_eq_refl.
    rewrite (filter_lru_nokey k (List.filter _ (lru w))) by apply find_lru_filter.
    reflexivity.
  - destruct (geocode_single_body P w address api_key provider) as [r1 w'] eqn:Eb.
    intros H. injection H as <- <-.
    pose proof (geocode_single_body_lru P w address api_key provider) as Hl.
    rewrite Eb in Hl. simpl in Hl.
    change (List.firstn LRU_MAXSIZE ((k, r1) :: lru w'))
      with ((k, r1) :: List.firstn 255 (lru w')). simpl.
    rewrite lru_key_eq_refl.
    rewrite (filter_lru_nokey k (List.firstn 255 (lru w'))).
    + reflexivity.
    + apply find_lru_take. rewrite Hl. exact Ef.
Qed.


(* ------------------------------------------------------------------ *)
(** ** Extra: the provider the app selects *)

Lemma truthy_long (k : pystr) : (10 < length k)%nat -> truthy k = true.
Proof.
  intros H. unfold truthy. destruct k; simpl in H; [lia|].
  rewrite bool_decide_eq_false_2 by discriminate. reflexivity.
Qed.

(** The app's choice and the geocoder's agree: the geocoder sends Google
    requests, with the entered key, exactly when the app decides to use
    Google (a key of more than 10 characters), and its thread pool has the
    size the app announces ([workers]); otherwise every request goes to
    Nominatim. *)
Theorem app_provider_consistent (gmaps_key : option pystr) :
  use_google (app_api_key gmaps_key) (app_provider gmaps_key)
    = app_use_google gmaps_key /\
  max_workers (app_provider gmaps_key) = app_workers gmaps_key /\
  forall address,
    request_event address (app_api_key gmaps_key) (app_provider gmaps_key)
    = match gmaps_key with
      | Some k => if app_use_google gmaps_key then EvGoogle address k
                  else EvNominatim (_ensure_japan address)
      | None => EvNominatim (_ensure_japan address)
      end.
Proof.
  assert (Hg : max_workers (u "google") = 10%nat) by reflexivity.
  assert (Hn : max_workers (u "nominatim") = 3%nat) by reflexivity.
  assert (Hng : use_google None (u "nominatim") = false) by reflexivity.
  destruct gmaps_key as [k|]; unfold app_api_key, app_provider, app_workers; simpl.
  - destruct (Nat.ltb_spec 10 (length k)) as [Hl|Hl].
    + assert (Hu : use_google (Some k) (u "google") = true).
      { unfold use_google. rewrite truthy_long by exact Hl.
        rewrite bool_decide_eq_true_2 by reflexivity. reflexivity. }
      rewrite Hu, Hg. split; [reflexivity|split; [reflexivity|]].
      intros a. unfold request_event. rewrite Hu. reflexivity.
    + rewrite Hng, Hn. auto.
  - rewrite Hng, Hn. auto.
Qed.

(* ------------------------------------------------------------------ *)
(** ** Extra: [_ensure_japan] *)

Lemma contains_app_r (n a b : pystr) :
  contains n b = true -> contains n (a ++ b) = true.
Proof.
  intros H. induction a as [|c a IH]; simpl; [exact H|].
  rewrite IH. apply orb_true_r.
Qed.

(** Every query [_ensure_japan] builds names the country ("日本" or
    "Japan"), and applying it again changes nothing. *)
Theorem ensure_japan_idempotent (address : pystr) :
  (contains (u "日本") (_ensure_japan address)
   || contains (u "Japan") (_ensure_japan address)) = true /\
  _ensure_japan (_ensure_japan address) = _ensure_japan address.
Proof.
  assert (Hs : contains (u "日本") (address ++ u " 日本") = true)
    by (apply contains_app_r; reflexivity).
  unfold _ensure_japan.
  destruct (contains (u "日本") address) eqn:E1;
    destruct (contains (u "Japan") address) eqn:E2; simpl;
    rewrite ?E1, ?E2, ?Hs; auto.
Qed.

(* ------------------------------------------------------------------ *)
(** ** Extra: the thread pool's first requests *)

Module ScheduleFacts.
Import Schedule.
Local Open Scope Z_scope.

Lemma insert_sorted_zeros (k : nat) (x : Z) (R : list Z) :
  0 < x -> insert_sorted x (List.repeat 0 k ++ R) = List.repeat 0 k ++ insert_sorted x R.
Proof.
  intros Hx. induction k as [|k IH]; simpl; [reflexivity|].
  destruct (Z.leb_spec x 0); [lia|]. rewrite IH. reflexivity.
Qed.

Lemma insert_sorted_Forall (P : Z -> Prop) (x : Z) (l : list Z) :
  P x -> Forall P l -> Forall P (insert_sorted x l).
Proof.
  intros Hx Hl. induction Hl as [|y l Hy Hl IH]; simpl; [constructor; auto|].
  destruct (x <=? y); constructor; auto.
Qed.

Lemma insert_sorted_nonempty (x : Z) (l : list Z) : insert_sorted x l <> [].
Proof. destruct l; simpl; [|destruct (x <=? z)]; discriminate. Qed.

Lemma run_burst (delay : Z) (m : nat) (R lat : list Z) :
  0 < delay -> Forall (fun l => 0 <= l) lat -> Forall (fun t => 0 < t) R ->
  (m <= length lat)%nat ->
  List.firstn m (run delay (List.repeat 0 m ++ R) lat) = List.repeat delay m.
Proof.
  revert R lat. induction m as [|m IH]; intros R lat Hd Hl HR Hm; [reflexivity|].
  destruct lat as [|l lat]; simpl in Hm; [lia|].
  inversion Hl as [|l' lat' Hl0 Hl']; subst. simpl.
  rewrite insert_sorted_zeros by lia. f_equal.
  apply IH; [exact Hd|exact Hl'| |lia].
  apply insert_sorted_Forall; [lia|exact HR].
Qed.

Lemma run_bounds (delay : Z) (free lat : list Z) :
  0 <= delay -> Forall (fun l => 0 <= l) lat -> Forall (fun t => 0 <= t) free ->
  free <> [] ->
  (length (run delay free lat) = length lat)%nat /\
  Forall (fun t => delay <= t) (run delay free lat).
Proof.
  revert free. induction lat as [|l lat IH]; intros free Hd Hl Hf Hne;
    [split; [reflexivity|constructor]|].
  destruct free as [|t free]; [congruence|].
  inversion Hl as [|l' lat' Hl0 Hl']; subst.
  inversion Hf as [|t' free' Ht Hf']; subst. simpl.
  destruct (IH (insert_sorted (t + delay + l) free)) as [Hlen Hge];
    [exact Hd|exact Hl'| |apply insert_sorted_nonempty|].
  - apply insert_sorted_Forall; [lia|exact Hf'].
  - split; [rewrite Hlen; reflexivity|]. constructor; [lia|exact Hge].
Qed.

End ScheduleFacts.

(** With a pool of [max_workers] threads, each sleeping [delay] before its
    request, and a batch of at least [max_workers] tasks, the first
    [max_workers] requests are all sent at time [delay], together; every
    task's request is sent, and none before [delay]. *)
Theorem request_times_first_burst (max_workers : nat) (delay : Z) (latencies : list Z) :
  (0 < delay)%Z -> Forall (fun l => 0 <= l)%Z latencies ->
  (1 <= max_workers <= length latencies)%nat ->
  let times := Schedule.request_times max_workers delay latencies in
  List.firstn max_workers times = List.repeat delay max_workers /\
  length times = length latencies /\
  Forall (fun t => delay <= t)%Z times.
Proof.
  intros Hd Hl Hm. unfold Schedule.request_times. split.
  - rewrite <- (app_nil_r (List.repeat 0%Z max_workers)).
    apply ScheduleFacts.run_burst; [exact Hd|exact Hl|constructor|lia].
  - apply ScheduleFacts.run_bounds; [lia|exact Hl| |].
    + apply Forall_forall. intros x Hx. apply list_elem_of_In, repeat_spec in Hx. lia.
    + destruct max_workers; [lia|discriminate].
Qed.

(* ------------------------------------------------------------------ *)
(** ** Extra: a second run of [geocode_addresses] *)







Lemma geocode_single_repeat_witness :
  geocode_single ward_only empty_world (u "東京都渋谷区") None nominatim
  = (fst (geocode_single ward_only empty_world (u "東京都渋谷区") None nominatim),
     snd (geocode_single ward_only empty_world (u "東京都渋谷区") None nominatim)) /\
  geocode_single ward_only
    (snd (geocode_single ward_only empty_world (u "東京都渋谷区") None nominatim))
    (u "東京都渋谷区") None nominatim
  = (fst (geocode_single ward_only empty_world (u "東京都渋谷区") None nominatim),
     snd (geocode_single ward_only empty_world (u "東京都渋谷区") None nominatim)).
Proof.
  assert (H : geocode_single ward_only empty_world (u "東京都渋谷区") None nominatim
    = (fst (geocode_single ward_only empty_world (u "東京都渋谷区") None nominatim),
       snd (geocode_single ward_only empty_world (u "東京都渋谷区") None nominatim)))
    by (vm_compute; reflexivity).
  split; [exact H|].
  exact (geocode_single_repeat ward_only empty_world (u "東京都渋谷区") None nominatim _ _ H).
Defined.


Lemma request_times_first_burst_witness :
  ((0 < 400)%Z /\ Forall (fun l => 0 <= l)%Z [100; 100; 100; 100]%Z /\
   (1 <= 3 <= length [100; 100; 100; 100]%Z)%nat) /\
  (let times := Schedule.request_times 3 400 [100; 100; 100; 100]%Z in
   List.firstn 3 times = List.repeat 400%Z 3 /\
   length times = length [100; 100; 100; 100]%Z /\
   Forall (fun t => 400 <= t)%Z times).
Proof.
  assert (H1 : (0 < 400)%Z) by lia.
  assert (H2 : Forall (fun l => 0 <= l)%Z [100; 100; 100; 100]%Z)
    by (repeat constructor; lia).
  assert (H3 : (1 <= 3 <= length [100; 100; 100; 100]%Z)%nat) by (simpl; lia).
  split; [auto|].
  exact (request_times_first_burst 3 400 [100; 100; 100; 100]%Z H1 H2 H3).
Defined.



(* ------------------------------------------------------------------ *)
(** ** Extra: [_deduplicate] as a normal form *)

Lemma dedup_loop_id seen l :
  NoDup (map dedup_key l) -> Forall (fun y => dedup_key y ∉ seen) l ->
  dedup_loop seen l = l.
Proof.
  revert seen. induction l as [|x l IH]; intros seen Hnd Hf; simpl; [reflexivity|].
  apply NoDup_cons in Hnd as [Hx Hnd]. inversion Hf as [|x' l' Hxs Hf']; subst.
  rewrite bool_decide_eq_false_2 by exact Hxs. f_equal. apply IH; [exact Hnd|].
  apply Forall_forall. intros y Hy Hin.
  apply elem_of_cons in Hin as [Hin|Hin].
  - apply Hx. rewrite <- Hin. apply list_elem_of_fmap. eauto.
  - rewrite Forall_forall in Hf'. exact (Hf' y Hy Hin).
Qed.

(** [_deduplicate] returns its input unchanged exactly when the input's
    (company, name, address) triples are pairwise distinct; so applying it
    a second time changes nothing. *)
Theorem deduplicate_fixpoint (stores : list dict) :
  (_deduplicate stores = stores <-> NoDup (map dedup_key stores)) /\
  _deduplicate (_deduplicate stores) = _deduplicate stores.
Proof.
  unfold _deduplicate. split.
  - split.
    + intros H. rewrite <- H. apply dedup_loop_fresh.
    + intros H. apply dedup_loop_id; [exact H|].
      apply Forall_forall. intros y _ Hy. inversion Hy.
  - apply dedup_loop_id; [apply dedup_loop_fresh|].
    apply Forall_forall. intros y _ Hy. inversion Hy.
Qed.

(* ------------------------------------------------------------------ *)
(** ** Extra: the records of [extract_stores_from_pdf] and of the app *)

Lemma parse_stores_well_formed (U : Unicode) (text company : pystr) (d : dict) :
  d ∈ _parse_stores U text company -> well_formed_record company d.
Proof.
  unfold _parse_stores. intros Hd.
  apply list_elem_of_In, in_flat_map in Hd as [i [_ Hd]].
  apply list_elem_of_In in Hd.
  exact (parse_line_records U company _ i d Hd).
Qed.

Lemma extract_stores_ok (U : Unicode) (src : PdfSource) (stores : list dict) :
  extract_stores_from_pdf U src = Ok stores ->
  exists text, stores = _deduplicate (_parse_stores U text (company_of U (raw_name src))).
Proof.
  unfold extract_stores_from_pdf.
  destruct (read_bytes src); [|discriminate].
  destruct (snd (acquire_text (plumber_text src) (ocr_text src))) as [text|]; [|discriminate].
  destruct (negb (truthy (strip text))); [discriminate|].
  intros H. injection H as <-. eauto.
Qed.

(** Every record [extract_stores_from_pdf] returns is a
    [{"name", "address", "company"}] dict as [add_store] builds it, with
    the company derived from the file name, a name of 2 to 60 characters in
    which SKIP_RE finds nothing and an address of 5 to 100 characters; no
    two of them have the same (company, name, address), and none has a
    "source_file" key. *)
Theorem extract_stores_records (U : Unicode) (src : PdfSource) (stores : list dict) :
  extract_stores_from_pdf U src = Ok stores ->
  Forall (fun d => well_formed_record (company_of U (raw_name src)) d /\
                   d !! u "source_file" = None) stores /\
  NoDup (map dedup_key stores).
Proof.
  intros H. apply extract_stores_ok in H as [text ->]. split.
  - apply Forall_forall. intros d Hd.
    assert (Hw : well_formed_record (company_of U (raw_name src)) d).
    { apply (parse_stores_well_formed U text).
      eapply elem_of_sublist; [exact Hd|apply dedup_loop_sublist]. }
    split; [exact Hw|]. destruct Hw as [n [a [-> _]]]. reflexivity.
  - apply dedup_loop_fresh.
Qed.

(** Every store of the app's [all_stores] is a record returned by
    [extract_stores_from_pdf] for one of the sources, with that source's
    label added under "source_file" (the record has no such key, so
    [setdefault] always adds it). *)
Theorem extract_all_tagged (U : Unicode) (sources : list (PdfSource * pystr)) (d : dict) :
  In d (all_stores (extract_all U sources)) ->
  exists src label stores d0,
    In (src, label) sources /\ extract_stores_from_pdf U src = Ok stores /\
    In d0 stores /\ d = <[u "source_file" := VStr label]> d0 /\
    well_formed_record (company_of U (raw_name src)) d0.
Proof.
  unfold extract_all. rewrite fold_extract_step. simpl.
  intros Hd. apply in_flat_map in Hd as [[src label] [Hin Hd]].
  unfold source_stores in Hd. simpl in Hd.
  destruct (extract_stores_from_pdf U src) as [stores|] eqn:E; [|contradiction].
  apply in_map_iff in Hd as [d0 [<- Hd0]].
  destruct (extract_stores_records U src stores E) as [Hf _].
  rewrite Forall_forall in Hf.
  destruct (Hf d0 (proj2 (list_elem_of_In _ _) Hd0)) as [Hw Hs].
  exists src, label, stores, d0. repeat split; auto.
  unfold setdefault. rewrite Hs. reflexivity.
Qed.

(* ------------------------------------------------------------------ *)
(** ** Extra: the lines of [_extract_text_pdfplumber] *)

Lemma split_on_nonempty (sep : N) (s : pystr) : split_on sep s <> [].
Proof.
  destruct s as [|c s]; simpl; [discriminate|].
  destruct (c =? sep)%N; [discriminate|]. destruct (split_on sep s); discriminate.
Qed.

Lemma split_on_app (sep : N) (a b : pystr) :
  split_on sep (a ++ sep :: b) = split_on sep a ++ split_on sep b.
Proof.
  induction a as [|c a IH]; simpl.
  - rewrite N.eqb_refl. reflexivity.
  - rewrite IH. destruct (c =? sep)%N; [reflexivity|].
    destruct (split_on sep a) as [|w ws] eqn:E; [exfalso; exact (split_on_nonempty sep a E)|].
    reflexivity.
Qed.

Lemma split_on_nosep (sep : N) (s : pystr) : ~ In sep s -> split_on sep s = [s].
Proof.
  induction s as [|c s IH]; simpl; intros H; [reflexivity|].
  destruct (N.eqb_spec c sep) as [->|Hne]; [tauto|].
  rewrite IH by tauto. reflexivity.
Qed.

Lemma split_on_join (sep : N) (p : pystr) (ps : list pystr) :
  split_on sep (join [sep] (p :: ps)) = flat_map (split_on sep) (p :: ps).
Proof.
  revert p. induction ps as [|x ps IH]; intros p; simpl.
  - rewrite !app_nil_r. reflexivity.
  - rewrite split_on_app. f_equal. exact (IH x).
Qed.

Lemma join_notin (sep c : N) (parts : list pystr) :
  c <> sep -> Forall (fun x => ~ In c x) parts -> ~ In c (join [sep] parts).
Proof.
  intros Hc Hf. destruct parts as [|p ps]; simpl; [tauto|].
  inversion Hf as [|p' ps' Hp Hps]; subst.
  rewrite in_app_iff, in_flat_map. intros [H|[x [Hx Hin]]]; [tauto|].
  destruct Hin as [Hin|Hin]; [congruence|].
  rewrite List.Forall_forall in Hps. exact (Hps x Hx Hin).
Qed.

Lemma row_line_no_newline (row : list (option pystr)) :
  Forall (fun c => ~ In 10%N (cell_str c)) row -> ~ In 10%N (row_line row).
Proof.
  intros H. apply join_notin; [discriminate|].
  apply List.Forall_map. exact H.
Qed.

Lemma fold_rows_lines (rows : list (list (option pystr))) (text : pystr) :
  Forall (fun row => Forall (fun c => ~ In 10%N (cell_str c)) row) rows ->
  split_on 10%N
    (fold_left (fun text row =>
                  match row with
                  | [] => text
                  | _ :: _ => text ++ [10%N] ++ row_line row
                  end) rows text)
  = split_on 10%N text ++ map row_line (List.filter nonempty_row rows).
Proof.
  revert text. induction rows as [|row rows IH]; intros text Hf; simpl.
  - rewrite app_nil_r. reflexivity.
  - inversion Hf as [|r' rs' Hr Hrs]; subst.
    destruct row as [|c cs]; simpl; rewrite IH by exact Hrs; [reflexivity|].
    simpl. rewrite split_on_app, (split_on_nosep 10 (row_line (c :: cs)))
      by (apply row_line_no_newline; exact Hr).
    rewrite <- app_assoc. reflexivity.
Qed.

Lemma fold_left_concat {A B} (f : A -> B -> A) (tables : list (list B)) (a : A) :
  fold_left (fun a table => fold_left f table a) tables a = fold_left f (concat tables) a.
Proof.
  revert a. induction tables as [|t ts IH]; intros a; simpl; [reflexivity|].
  rewrite fold_left_app. apply IH.
Qed.

(** When no table cell contains a newline, the lines of the text
    [_extract_text_pdfplumber] returns are, page by page, the lines of the
    page's own text followed by one line per non-empty table row; and the
    tab-separated fields of a row's line are its cells ([None] as ""), as
    long as no cell contains a tab. *)
Theorem extract_text_pdfplumber_lines (pages : list Page) :
  pages <> [] ->
  Forall (fun pg => Forall (fun row => Forall (fun c => ~ In 10%N (cell_str c)) row)
                      (page_rows pg)) pages ->
  split_on 10%N (_extract_text_pdfplumber pages)
  = flat_map (fun pg => split_on 10%N (match page_text pg with Some t => t | None => [] end)
                        ++ map row_line (List.filter nonempty_row (page_rows pg))) pages /\
  (forall row, row <> [] -> Forall (fun c => ~ In 9%N (cell_str c)) row ->
     split_on 9%N (row_line row) = map cell_str row).
Proof.
  intros Hne Hf.
  assert (Hpage : forall pg,
    Forall (fun row => Forall (fun c => ~ In 10%N (cell_str c)) row) (page_rows pg) ->
    split_on 10%N (page_string pg)
    = split_on 10%N (match page_text pg with Some t => t | None => [] end)
      ++ map row_line (List.filter nonempty_row (page_rows pg))).
  { intros pg Hr. unfold page_string. rewrite fold_left_concat.
    apply fold_rows_lines, Hr. }
  assert (Hall : forall l, Forall (fun pg => Forall (fun row => Forall (fun c => ~ In 10%N (cell_str c)) row)
                      (page_rows pg)) l ->
    flat_map (split_on 10%N) (map page_string l)
    = flat_map (fun pg => split_on 10%N (match page_text pg with Some t => t | None => [] end)
                     ++ map row_line (List.filter nonempty_row (page_rows pg))) l).
  { induction l as [|pg l IH]; intros Hl; simpl; [reflexivity|].
    inversion Hl as [|pg' l' Hp Hl']; subst.
    rewrite Hpage by exact Hp. rewrite IH by exact Hl'. reflexivity. }
  split.
  - unfold _extract_text_pdfplumber.
    destruct pages as [|pg pgs]; [congruence|].
    change (map page_string (pg :: pgs)) with (page_string pg :: map page_string pgs).
    rewrite split_on_join.
    change (page_string pg :: map page_string pgs) with (map page_string (pg :: pgs)).
    apply Hall, Hf.
  - intros row Hrow Hc. unfold row_line.
    destruct row as [|c cs]; [congruence|]. simpl map. rewrite split_on_join.
    change (cell_str c :: map cell_str cs) with (map cell_str (c :: cs)).
    clear Hrow. induction Hc as [|x xs Hx Hxs IH]; simpl; [reflexivity|].
    rewrite split_on_nosep by exact Hx. simpl. f_equal. exact IH.
Qed.


Lemma extract_stores_records_witness :
  exists stores, extract_stores_from_pdf sample_ucd sample_source = Ok stores /\
  Forall (fun d => well_formed_record (company_of sample_ucd (raw_name sample_source)) d /\
                   d !! u "source_file" = None) stores /\
  NoDup (map dedup_key stores).
Proof.
  assert (E : extract_stores_from_pdf sample_ucd sample_source =
              Ok [store_record (u "渋谷店") (u "東京都渋谷区道玄坂2-1-1 03-5555-6666") (u "ABC");
                  store_record (u "新宿店") (u "東京都新宿区西新宿1-1-1 03-1111-2222") (u "ABC");
                  store_record (u "池袋店") (u "東京都豊島区南池袋1-2-3 03-3333-4444") (u "ABC")])
    by (vm_compute; reflexivity).
  eexists. split; [exact E|]. exact (extract_stores_records sample_ucd sample_source _ E).
Defined.

Lemma extract_all_tagged_witness :
  exists src label stores d0,
    In (src, label) [(sample_source, u "a.pdf")] /\
    extract_stores_from_pdf sample_ucd src = Ok stores /\
    In d0 stores /\
    <[u "source_file" := VStr (u "a.pdf")]>
      (store_record (u "渋谷店") (u "東京都渋谷区道玄坂2-1-1 03-5555-6666") (u "ABC"))
    = <[u "source_file" := VStr label]> d0 /\
    well_formed_record (company_of sample_ucd (raw_name src)) d0.
Proof.
  apply (extract_all_tagged sample_ucd [(sample_source, u "a.pdf")]).
  assert (E : all_stores (extract_all sample_ucd [(sample_source, u "a.pdf")]) =
              map (setdefault (u "source_file") (VStr (u "a.pdf")))
               [store_record (u "渋谷店") (u "東京都渋谷区道玄坂2-1-1 03-5555-6666") (u "ABC");
                store_record (u "新宿店") (u "東京都新宿区西新宿1-1-1 03-1111-2222") (u "ABC");
                store_record (u "池袋店") (u "東京都豊島区南池袋1-2-3 03-3333-4444") (u "ABC")])
    by (vm_compute; reflexivity).
  rewrite E. left. vm_compute. reflexivity.
Defined.


Lemma extract_text_pdfplumber_lines_witness :
  split_on 10%N (_extract_text_pdfplumber [sample_page; sample_page])
  = flat_map (fun pg => split_on 10%N (match page_text pg with Some t => t | None => [] end)
                        ++ map row_line (List.filter nonempty_row (page_rows pg)))
             [sample_page; sample_page] /\
  (forall row, row <> [] -> Forall (fun c => ~ In 9%N (cell_str c)) row ->
     split_on 9%N (row_line row) = map cell_str row).
Proof.
  apply extract_text_pdfplumber_lines; [discriminate|].
  vm_compute. repeat constructor; simpl; intuition discriminate.
Defined.


(* ------------------------------------------------------------------ *)
(** ** [re.sub] with a run [[...]+] of a character class *)

Lemma ends_seq s r1 r2 i :
  Re.ends s (Re.Seq r1 r2) i = flat_map (fun k => Re.ends s r2 k) (Re.ends s r1 i).
Proof. reflexivity. Qed.

Lemma ends_char s q i :
  Re.ends s (Re.Char q) i =
  match s !! i with Some c => if q c then [S i] else [] | None => [] end.
Proof. reflexivity. Qed.

Lemma ends_alt s r1 r2 i : Re.ends s (Re.Alt r1 r2) i = Re.ends s r1 i ++ Re.ends s r2 i.
Proof. reflexivity. Qed.

Lemma ends_star s lz r1 i :
  Re.ends s (Re.Star lz r1) i = star_ends s lz r1 (length s - i + 1) i.
Proof. reflexivity. Qed.

Lemma run_len_le q l : (run_len q l <= length l)%nat.
Proof. induction l as [|c l IH]; simpl; [lia|]. destruct (q c); simpl; lia. Qed.

Section SubPlus.
Variable s : list N.
Variable q : N -> bool.

Lemma star_char_head f j :
  head (star_ends s false (Re.Char q) f j) = Some (j + min f (run_len q (drop j s)))%nat.
Proof.
  revert j. induction f as [|f IH]; intros j; [simpl; f_equal; lia|].
  unfold star_ends; fold (star_ends s false (Re.Char q)). rewrite ends_char. destruct (s !! j) as [c|] eqn:Ec.
  - rewrite (drop_S s c j Ec). simpl. destruct (q c); cbn [flat_map].
    + rewrite (proj2 (Nat.ltb_lt j (S j))) by lia. rewrite app_nil_r.
      destruct (star_ends s false (Re.Char q) f (S j)) as [|x xs] eqn:E.
      * specialize (IH (S j)). rewrite E in IH. discriminate.
      * simpl. specialize (IH (S j)). rewrite E in IH. simpl in IH.
        injection IH as ->. f_equal. lia.
    + simpl. f_equal. lia.
  - apply lookup_ge_None_1 in Ec. rewrite drop_ge by lia. simpl. f_equal. lia.
Qed.

Lemma head_filter {A} (g : A -> bool) (l : list A) x :
  head l = Some x -> g x = true -> head (List.filter g l) = Some x.
Proof. destruct l as [|y l]; simpl; [discriminate|]. intros [= ->] ->. reflexivity. Qed.

Lemma first_end_plus_char p adv :
  Re.first_end s (Re.plus (Re.Char q)) p adv =
  match s !! p with
  | Some c => if q c then Some (S p + run_len q (drop (S p) s))%nat else None
  | None => None
  end.
Proof.
  unfold Re.first_end, Re.plus. rewrite ends_seq, ends_char.
  destruct (s !! p) as [c|] eqn:Ec; [|destruct adv; reflexivity].
  destruct (q c); [|destruct adv; reflexivity].
  cbn [flat_map]. rewrite app_nil_r, ends_star.
  assert (H : head (star_ends s false (Re.Char q) (length s - S p + 1) (S p))
              = Some (S p + run_len q (drop (S p) s))%nat).
  { rewrite star_char_head. f_equal.
    pose proof (run_len_le q (drop (S p) s)). rewrite length_drop in H. lia. }
  destruct adv; [|exact H]. apply head_filter; [exact H|]. apply Nat.ltb_lt. lia.
Qed.

Lemma search_plus_char n p adv :
  Re.search_from s (Re.plus (Re.Char q)) p adv n =
  match Re.search_from s (Re.Char q) p adv n with
  | Some (st, _) => Some (st, S st + run_len q (drop (S st) s))%nat
  | None => None
  end.
Proof.
  revert p adv. induction n as [|n IH]; intros p adv; simpl;
    rewrite first_end_plus_char, first_end_char;
    destruct (s !! p) as [c|]; try destruct (q c); try reflexivity; apply IH.
Qed.

Variable repl : pystr.

Lemma collapse_nonq x y :
  Forall (fun c => q c = false) x ->
  collapse q repl false (x ++ y) = x ++ collapse q repl false y.
Proof.
  induction 1 as [|c x Hc Hx IH]; simpl; [reflexivity|]. rewrite Hc, IH. reflexivity.
Qed.

Lemma collapse_run l :
  collapse q repl true l = collapse q repl false (drop (run_len q l) l).
Proof.
  induction l as [|c l IH]; simpl; [reflexivity|].
  destruct (q c) eqn:Eq; [exact IH|]. simpl. rewrite Eq. reflexivity.
Qed.

Lemma sub_loop_plus f p adv :
  (length s - p < f)%nat ->
  Re.sub_loop s (Re.plus (Re.Char q)) repl p adv f = collapse q repl false (drop p s).
Proof.
  revert p adv; induction f as [|f IH]; intros p adv Hf; [lia|]. simpl.
  rewrite search_plus_char.
  destruct (Re.search_from s (Re.Char q) p adv (length s - p)) as [[st e0]|] eqn:Es.
  - destruct (search_char_some _ _ _ _ _ _ _ Es) as [_ [Hp [[c [Hc Hq]] Hk]]].
    pose proof (lookup_lt_Some _ _ _ Hc) as Hlt.
    rewrite (proj2 (Nat.eqb_neq st (S st + run_len q (drop (S st) s)))) by lia.
    rewrite IH by lia. unfold Re.slice.
    rewrite <- (take_drop (st - p) (drop p s)) at 2.
    rewrite drop_drop. replace (p + (st - p))%nat with st by lia.
    rewrite collapse_nonq.
    + rewrite (drop_S s c st Hc). simpl. rewrite Hq. f_equal. f_equal.
      rewrite collapse_run, drop_drop. reflexivity.
    + apply Forall_forall. intros x Hx. apply list_elem_of_lookup in Hx as [j Hj].
      rewrite lookup_take_Some in Hj. destruct Hj as [Hj Hj'].
      rewrite lookup_drop in Hj. apply (Hk (p + j)%nat x); [lia | exact Hj].
  - symmetry. rewrite <- (app_nil_r (drop p s)) at 1. rewrite collapse_nonq.
    + simpl. rewrite app_nil_r. reflexivity.
    + apply Forall_forall. intros x Hx. apply list_elem_of_lookup in Hx as [j Hj].
      rewrite lookup_drop in Hj.
      apply (search_char_none s q (length s - p) p adv ltac:(lia) Es (p + j)%nat x);
        [lia | exact Hj].
Qed.

Lemma sub_plus_char : Re.sub (Re.plus (Re.Char q)) repl s = collapse q repl false s.
Proof. unfold Re.sub. rewrite sub_loop_plus by lia. reflexivity. Qed.

End SubPlus.

(* ------------------------------------------------------------------ *)
(** ** Clean texts *)

Lemma nds_tail a l : no_double_space (a :: l) = true -> no_double_space l = true.
Proof. destruct l as [|b l]; [reflexivity|]. cbn. intros H. apply andb_prop in H. tauto. Qed.

Lemma nds_cons_nonspace c l : c <> 32%N -> no_double_space (c :: l) = no_double_space l.
Proof.
  intros Hc. destruct l as [|b l]; [reflexivity|]. cbn.
  rewrite (proj2 (N.eqb_neq c 32) Hc). reflexivity.
Qed.

Lemma nds_app_l x y :
  no_double_space (x ++ y) = true -> no_double_space x = true /\ no_double_space y = true.
Proof.
  induction x as [|a x IH]; intros H; [split; [reflexivity|exact H]|].
  destruct x as [|b x].
  - split; [reflexivity|]. exact (nds_tail a y H).
  - change (no_double_space (a :: b :: (x ++ y))) with
      (negb ((a =? 32)%N && (b =? 32)%N) && no_double_space ((b :: x) ++ y)) in H.
    apply andb_prop in H as [H1 H2]. destruct (IH H2) as [Hx Hy]. split; [|exact Hy].
    change (negb ((a =? 32)%N && (b =? 32)%N) && no_double_space (b :: x) = true).
    rewrite H1, Hx. reflexivity.
Qed.

Lemma nds_app x z :
  no_double_space x = true -> no_double_space z = true -> head z <> Some 32%N ->
  no_double_space (x ++ z) = true.
Proof.
  induction x as [|a x IH]; intros Hx Hz Hh; [exact Hz|].
  destruct x as [|b x].
  - destruct z as [|c z]; [reflexivity|].
    change (negb ((a =? 32)%N && (c =? 32)%N) && no_double_space (c :: z) = true).
    rewrite Hz, andb_true_r. destruct (N.eqb_spec c 32) as [->|_]; [exfalso; apply Hh; reflexivity|].
    rewrite andb_false_r. reflexivity.
  - change (negb ((a =? 32)%N && (b =? 32)%N) && no_double_space (b :: x) = true) in Hx.
    apply andb_prop in Hx as [H1 H2].
    change (negb ((a =? 32)%N && (b =? 32)%N) && no_double_space ((b :: x) ++ z) = true).
    rewrite H1. apply IH; assumption.
Qed.

Lemma clean_infix a l b : clean_text (a ++ l ++ b) -> clean_text l.
Proof.
  intros [Hf Hn]. apply Forall_app in Hf as [_ Hf]. apply Forall_app in Hf as [Hf _].
  apply nds_app_l in Hn as [_ Hn]. apply nds_app_l in Hn as [Hn _]. split; assumption.
Qed.

Lemma clean_take n l : clean_text l -> clean_text (take n l).
Proof.
  intros H. apply (clean_infix [] _ (drop n l)). simpl. rewrite take_drop. exact H.
Qed.

Lemma clean_drop n l : clean_text l -> clean_text (drop n l).
Proof.
  intros H. apply (clean_infix (take n l) _ []). rewrite app_nil_r, take_drop. exact H.
Qed.

Lemma clean_nil : clean_text [].
Proof. split; [constructor | reflexivity]. Qed.

Lemma lstrip_drop l : exists k, lstrip l = drop k l.
Proof.
  induction l as [|c l [k IH]]; [exists 0%nat; reflexivity|]. simpl.
  destruct (py_isspace c); [exists (S k); exact IH | exists 0%nat; reflexivity].
Qed.

Lemma strip_infix l : exists a b, l = a ++ strip l ++ b.
Proof.
  unfold strip. destruct (lstrip_drop l) as [k Hk]. rewrite Hk.
  destruct (lstrip_drop (rev (drop k l))) as [j Hj]. rewrite Hj.
  rewrite skipn_rev, rev_involutive.
  exists (take k l), (drop (length (drop k l) - j) (drop k l)).
  rewrite take_drop. rewrite take_drop. reflexivity.
Qed.

Lemma clean_strip l : clean_text l -> clean_text (strip l).
Proof. intros H. destruct (strip_infix l) as [a [b E]]. rewrite E in H. exact (clean_infix _ _ _ H). Qed.

Lemma split_on_shape sep T :
  exists w ws, split_on sep T = w :: ws /\ (exists b, T = w ++ b) /\
               Forall (fun v => exists a b, T = a ++ v ++ b) ws.
Proof.
  induction T as [|c T IH].
  - exists [], []. split; [reflexivity|]. split; [exists []; reflexivity | constructor].
  - destruct IH as [w [ws [E [[b Hb] Hf]]]]. simpl. rewrite E.
    assert (Hf' : Forall (fun v => exists a b, c :: T = a ++ v ++ b) ws).
    { eapply Forall_impl; [exact Hf|]. intros v [a [b' Hv]].
      exists (c :: a), b'. rewrite Hv. reflexivity. }
    destruct (c =? sep)%N.
    + exists [], (w :: ws). split; [reflexivity|]. split; [exists (c :: T); reflexivity|].
      constructor; [|exact Hf']. exists [c], b. rewrite Hb. reflexivity.
    + exists (c :: w), ws. split; [reflexivity|].
      split; [exists b; rewrite Hb; reflexivity | exact Hf'].
Qed.

Lemma split_on_elem sep T v : v ∈ split_on sep T -> exists a b, T = a ++ v ++ b.
Proof.
  destruct (split_on_shape sep T) as [w [ws [E [[b Hb] Hf]]]]. rewrite E.
  intros Hv. apply elem_of_cons in Hv as [->|Hv].
  - exists [], b. exact Hb.
  - rewrite Forall_forall in Hf. exact (Hf v Hv).
Qed.

Lemma line_at_clean T i : clean_text T -> clean_text (line_at (split_on 10%N T) i).
Proof.
  intros H. unfold line_at. apply clean_strip.
  destruct (split_on 10%N T !! i) as [l|] eqn:E; [|exact clean_nil].
  apply list_elem_of_lookup_2, split_on_elem in E as [a [b Hab]].
  rewrite Hab in H. exact (clean_infix _ _ _ H).
Qed.

(* ------------------------------------------------------------------ *)
(** ** The three rewriting steps of [_normalize] *)

Lemma translate_step t :
  Forall (fun c => (c =? 12288)%N = false /\ Re.range 65296 65305 c = false)
    (translate (combine (u "　０１２３４５６７８９") (u " 0123456789")) t).
Proof.
  assert (Ht : combine (u "　０１２３４５６７８９") (u " 0123456789") =
    [(12288, 32); (65296, 48); (65297, 49); (65298, 50); (65299, 51); (65300, 52);
     (65301, 53); (65302, 54); (65303, 55); (65304, 56); (65305, 57)]%N)
    by (vm_compute; reflexivity).
  unfold translate. rewrite Ht. apply Forall_forall. intros x Hx.
  apply list_elem_of_fmap in Hx as [c [-> _]]. cbn [List.find fst].
  repeat match goal with
  | |- context [(?a =? c)%N] => destruct (N.eqb_spec a c); [subst; split; reflexivity|]
  end.
  split; [apply N.eqb_neq; congruence|].
  unfold Re.range. destruct (N.leb_spec 65296 c), (N.leb_spec c 65305); try reflexivity.
  lia.
Qed.

Section Collapse.
Variable q : N -> bool.

Lemma collapse_chars (P : N -> Prop) repl b l :
  Forall (fun c => q c = false -> P c) l -> Forall P repl -> Forall P (collapse q repl b l).
Proof.
  intros Hl Hr. revert b. induction Hl as [|c l Hc Hl IH]; intros b; simpl; [constructor|].
  destruct (q c) eqn:Eq; [destruct b; [apply IH | apply Forall_app; split; [exact Hr | apply IH]]|].
  constructor; [exact (Hc eq_refl) | apply IH].
Qed.

Hypothesis q32 : q 32%N = true.

Lemma collapse_head32 l : head (collapse q [32%N] true l) <> Some 32%N.
Proof.
  induction l as [|c l IH]; simpl; [discriminate|].
  destruct (q c) eqn:Eq; [exact IH|]. simpl. intros [= ->]. congruence.
Qed.

Lemma collapse_nds b l : no_double_space (collapse q [32%N] b l) = true.
Proof.
  revert b. induction l as [|c l IH]; intros b; simpl; [reflexivity|].
  destruct (q c) eqn:Eq.
  - destruct b; [apply IH|].
    apply (nds_app [32%N]); [reflexivity | apply IH | apply collapse_head32].
  - rewrite nds_cons_nonspace by congruence. apply IH.
Qed.

End Collapse.

Lemma blanks_step t :
  clean_text (Re.sub BLANKS_RE (u " ")
    (translate (combine (u "　０１２３４５６７８９") (u " 0123456789")) t)).
Proof.
  change (u " ") with [32%N]. unfold BLANKS_RE, Re.cls. rewrite sub_plus_char. split.
  - apply collapse_chars; [|repeat constructor].
    eapply Forall_impl; [apply translate_step|]. intros c [H1 H2] Hq.
    unfold clean_char. rewrite H1, H2. simpl in Hq.
    destruct (N.eqb_spec c 9) as [->|_]; [discriminate|]. reflexivity.
  - apply collapse_nds. reflexivity.
Qed.

Lemma sub_loop_clean s r p adv f :
  clean_text s -> clean_text (Re.sub_loop s r [10; 10]%N p adv f).
Proof.
  intros Hs. revert p adv. induction f as [|f IH]; intros p adv; simpl;
    [exact (clean_drop p s Hs)|].
  destruct (Re.search_from s r p adv (length s - p)) as [[st e]|];
    [|exact (clean_drop p s Hs)].
  destruct (clean_take (st - p) (drop p s) (clean_drop p s Hs)) as [Hf1 Hn1].
  destruct (IH e (st =? e)%nat) as [Hf2 Hn2]. unfold Re.slice. split.
  - apply Forall_app. split; [exact Hf1|]. repeat constructor. exact Hf2.
  - apply nds_app; [exact Hn1 | | discriminate].
    change (no_double_space (10%N :: 10%N :: Re.sub_loop s r [10; 10]%N e (st =? e)%nat f) = true).
    rewrite !nds_cons_nonspace by discriminate. exact Hn2.
Qed.

Lemma normalize_clean text : clean_text (_normalize text).
Proof.
  unfold _normalize. apply clean_strip. unfold Re.sub. apply sub_loop_clean, blanks_step.
Qed.

Lemma lstrip_head l : match lstrip l with [] => True | c :: _ => py_isspace c = false end.
Proof.
  induction l as [|c l IH]; simpl; [exact I|].
  destruct (py_isspace c) eqn:E; [exact IH | exact E].
Qed.

Lemma lstrip_snoc x c : py_isspace c = false -> exists y, lstrip (x ++ [c]) = y ++ [c].
Proof.
  intros Hc. induction x as [|a x IH]; simpl.
  - rewrite Hc. exists []. reflexivity.
  - destruct (py_isspace a); [exact IH | exists (a :: x); reflexivity].
Qed.

Lemma strip_ends l :
  match strip l with [] => True | c :: _ => py_isspace c = false end /\
  match rev (strip l) with [] => True | c :: _ => py_isspace c = false end.
Proof.
  split.
  - unfold strip. pose proof (lstrip_head l) as H.
    destruct (lstrip l) as [|c m]; [exact I|]. simpl.
    destruct (lstrip_snoc (rev m) c H) as [y ->]. rewrite rev_app_distr. exact H.
  - unfold strip. rewrite rev_involutive. apply lstrip_head.
Qed.

(* ------------------------------------------------------------------ *)
(** ** SPLIT_RE on a clean text *)

Lemma ends_lit s c i :
  Re.ends s (Re.lit c) i =
  match s !! i with Some d => if (c =? d)%N then [S i] else [] | None => [] end.
Proof. reflexivity. Qed.

Lemma ends_seq_nil s r1 r2 i : Re.ends s r1 i = [] -> Re.ends s (Re.Seq r1 r2) i = [].
Proof. intros H. rewrite ends_seq, H. reflexivity. Qed.

Lemma nds_lookup L j :
  no_double_space L = true -> L !! j = Some 32%N -> L !! S j = Some 32%N -> False.
Proof.
  revert j. induction L as [|a L IH]; intros j Hn H1 H2; [discriminate|].
  destruct j as [|j].
  - destruct L as [|b L]; [discriminate|]. simpl in H1, H2.
    injection H1 as ->. injection H2 as ->. discriminate.
  - exact (IH j (nds_tail a L Hn) H1 H2).
Qed.

Lemma ends_split_nil L j : clean_text L -> Re.ends L SPLIT_RE j = [].
Proof.
  intros [Hf Hn]. unfold SPLIT_RE, Re.alts. cbn [fold_right]. rewrite !ends_alt.
  assert (Hc : forall c, L !! j = Some c -> clean_char c = true)
    by (intros c Hc; exact (Forall_lookup_1 _ _ _ _ Hf Hc)).
  assert (H9 : Re.ends L (Re.lit 9) j = []).
  { rewrite ends_lit. destruct (L !! j) as [c|] eqn:E; [|reflexivity].
    specialize (Hc c eq_refl). unfold clean_char in Hc.
    destruct (N.eqb_spec 9 c) as [<-|_]; [discriminate | reflexivity]. }
  assert (H12288 : Re.ends L (Re.rep_min 2 (Re.lit (ch "　"))) j = []).
  { replace (ch "　") with 12288%N by (vm_compute; reflexivity).
    unfold Re.rep_min, Re.rep. cbn [Nat.iter]. apply ends_seq_nil, ends_seq_nil.
    rewrite ends_lit. destruct (L !! j) as [c|] eqn:E; [|reflexivity].
    specialize (Hc c eq_refl). unfold clean_char in Hc.
    destruct (N.eqb_spec 12288 c) as [<-|_]; [discriminate | reflexivity]. }
  assert (H32 : Re.ends L (Re.rep_min 3 (Re.lit 32)) j = []).
  { unfold Re.rep_min, Re.rep. apply ends_seq_nil.
    change (Nat.iter 3 (Re.Seq (Re.lit 32)) Re.Eps)
      with (Re.Seq (Re.lit 32) (Re.Seq (Re.lit 32) (Re.Seq (Re.lit 32) Re.Eps))).
    destruct (decide (L !! j = Some 32%N)) as [E|E].
    - rewrite ends_seq, ends_lit, E, N.eqb_refl. cbn [flat_map]. rewrite app_nil_r.
      apply ends_seq_nil. rewrite ends_lit.
      destruct (L !! S j) as [d|] eqn:Ed; [|reflexivity].
      destruct (N.eqb_spec 32 d) as [<-|_]; [|reflexivity].
      exfalso. exact (nds_lookup L j Hn E Ed).
    - apply ends_seq_nil. rewrite ends_lit.
      destruct (L !! j) as [d|]; [|reflexivity].
      destruct (N.eqb_spec 32 d) as [<-|_]; [congruence | reflexivity]. }
  rewrite H9, H12288, H32. unfold Re.never. rewrite ends_char.
  destruct (L !! j); reflexivity.
Qed.

Lemma split_clean L : clean_text L -> Re.split SPLIT_RE L = [L].
Proof.
  intros H.
  assert (E : forall n p adv, Re.search_from L SPLIT_RE p adv n = None).
  { induction n as [|n IH]; intros p adv; simpl; unfold Re.first_end;
      rewrite (ends_split_nil L p H); destruct adv; simpl; try reflexivity; apply IH. }
  unfold Re.split. replace (2 * length L + 2)%nat with (S (2 * length L + 1)) by lia.
  cbn [Re.split_loop]. rewrite E. reflexivity.
Qed.

(* ------------------------------------------------------------------ *)
(** ** Extra: what [_normalize] leaves, and pattern 1 of [_parse_stores] *)

(** The text [_normalize] returns has no tab, no ideographic space and no
    full-width digit, never two spaces in a row, and neither starts nor
    ends with a whitespace character. *)
Theorem normalize_shape (text : pystr) :
  Forall (fun c => clean_char c = true) (_normalize text) /\
  no_double_space (_normalize text) = true /\
  match _normalize text with [] => True | c :: _ => py_isspace c = false end /\
  match rev (_normalize text) with [] => True | c :: _ => py_isspace c = false end.
Proof.
  destruct (normalize_clean text) as [Hf Hn].
  assert (Hs : exists t, _normalize text = strip t) by (eexists; reflexivity).
  destruct Hs as [t Ht]. destruct (strip_ends t) as [H1 H2].
  rewrite Ht in Hf, Hn |- *. repeat split; assumption.
Qed.

(** Every line [_parse_stores] reads from a normalized text is left whole
    by SPLIT_RE ([\t|　{2,}| {3,}]): its split is the line alone, so the
    column layout of pattern 1 never adds a record. *)
Theorem parse_lines_never_split (U : Unicode) (text company : pystr) (i : nat) :
  let line := line_at (split_on 10%N (_normalize text)) i in
  Re.split SPLIT_RE line = [line] /\
  (if (2 <=? length (Re.split SPLIT_RE line))%nat
   then pattern1 U company (Re.split SPLIT_RE line) else []) = [].
Proof.
  intros line. assert (H : Re.split SPLIT_RE line = [line])
    by (apply split_clean, line_at_clean, normalize_clean).
  rewrite H. split; reflexivity.
Qed.


(* ------------------------------------------------------------------ *)
(** ** UTF-8 and percent-encoding *)


Lemma land63 x : N.land x 63 = (x mod 64)%N.
Proof. change 63%N with (N.ones 6). rewrite N.land_ones. reflexivity. Qed.
Lemma land31 x : N.land x 31 = (x mod 32)%N.
Proof. change 31%N with (N.ones 5). rewrite N.land_ones. reflexivity. Qed.
Lemma land15 x : N.land x 15 = (x mod 16)%N.
Proof. change 15%N with (N.ones 4). rewrite N.land_ones. reflexivity. Qed.
Lemma land7 x : N.land x 7 = (x mod 8)%N.
Proof. change 7%N with (N.ones 3). rewrite N.land_ones. reflexivity. Qed.
Lemma shr4 x : N.shiftr x 4 = (x / 16)%N.
Proof. rewrite N.shiftr_div_pow2. reflexivity. Qed.
Lemma shr6 x : N.shiftr x 6 = (x / 64)%N.
Proof. rewrite N.shiftr_div_pow2. reflexivity. Qed.
Lemma shr12 x : N.shiftr x 12 = (x / 4096)%N.
Proof. rewrite N.shiftr_div_pow2. reflexivity. Qed.
Lemma shr18 x : N.shiftr x 18 = (x / 262144)%N.
Proof. rewrite N.shiftr_div_pow2. reflexivity. Qed.


Lemma decode_encode_char c rest :
  (c < 1114112)%N -> Utf8.decode (Utf8.encode_char c ++ rest) = c :: Utf8.decode rest.
Proof.
  intros Hc. unfold Utf8.encode_char. rewrite ?shr6, ?shr12, ?shr18, ?land63.
  destruct (N.ltb_spec c 128); [cbn [app Utf8.decode]; ltb_cases; reflexivity|].
  destruct (N.ltb_spec c 2048).
  { cbn [app Utf8.decode]. rewrite ?land31, ?land63. ltb_cases. f_equal. narith. }
  destruct (N.ltb_spec c 65536).
  { cbn [app Utf8.decode]. rewrite ?land15, ?land63. ltb_cases. f_equal. narith. }
  cbn [app Utf8.decode]. rewrite ?land7, ?land63. ltb_cases. f_equal. narith.
Qed.

Lemma decode_encode s : Forall (fun c => c < 1114112)%N s -> Utf8.decode (Utf8.encode s) = s.
Proof.
  induction 1 as [|c s Hc Hs IH]; [reflexivity|].
  unfold Utf8.encode. cbn [flat_map]. rewrite decode_encode_char by exact Hc.
  f_equal. exact IH.
Qed.

Lemma encode_char_bytes c : (c < 1114112)%N -> Forall (fun b => b < 256)%N (Utf8.encode_char c).
Proof.
  intros Hc. unfold Utf8.encode_char. rewrite ?shr6, ?shr12, ?shr18, ?land63.
  destruct (N.ltb_spec c 128); [repeat constructor; narith|].
  destruct (N.ltb_spec c 2048); [repeat constructor; narith|].
  destruct (N.ltb_spec c 65536); repeat constructor; narith.
Qed.

Lemma encode_bytes s : Forall (fun c => c < 1114112)%N s -> Forall (fun b => b < 256)%N (Utf8.encode s).
Proof.
  induction 1 as [|c s Hc Hs IH]; [constructor|].
  unfold Utf8.encode. cbn [flat_map]. apply Forall_app. split; [exact (encode_char_bytes c Hc) | exact IH].
Qed.

Lemma scalar_value_lt s : Forall scalar_value s -> Forall (fun c => c < 1114112)%N s.
Proof. intros H. eapply Forall_impl; [exact H|]. unfold scalar_value. lia. Qed.

Lemma scalar_values_check s :
  forallb (fun c => (c <? 55296)%N || ((57343 <? c)%N && (c <? 1114112)%N)) s = true ->
  Forall scalar_value s.
Proof.
  intros H. apply Forall_forall. intros c Hc. apply list_elem_of_In in Hc.
  rewrite forallb_forall in H. specialize (H c Hc). unfold scalar_value.
  apply orb_true_iff in H as [H|H]; [left; apply N.ltb_lt, H|].
  apply andb_true_iff in H as [Ha Hb]. apply N.ltb_lt in Ha, Hb. right. lia.
Qed.

Lemma hex_upper_inj d1 d2 : (d1 < 16)%N -> (d2 < 16)%N -> hex_upper d1 = hex_upper d2 -> d1 = d2.
Proof. unfold hex_upper. intros H1 H2. destruct (N.ltb_spec d1 10), (N.ltb_spec d2 10); lia. Qed.

Lemma quote_safe_percent : quote_safe 37%N = false.
Proof. reflexivity. Qed.

Lemma quote_byte_head a b x y :
  (a < 256)%N -> (b < 256)%N -> quote_byte a ++ x = quote_byte b ++ y -> a = b.
Proof.
  intros Ha Hb. unfold quote_byte.
  destruct (quote_safe a) eqn:Ea, (quote_safe b) eqn:Eb; cbn [app]; intros H.
  - injection H as E _. exact E.
  - injection H as E _. subst a. rewrite quote_safe_percent in Ea. discriminate.
  - injection H as E _. subst b. rewrite quote_safe_percent in Eb. discriminate.
  - injection H as E2 E1 _. rewrite !shr4 in E2. rewrite !land15 in E1.
    apply hex_upper_inj in E2; [|narith|narith]. apply hex_upper_inj in E1; [|narith|narith].
    narith.
Qed.

Lemma quote_byte_nonempty b : quote_byte b <> [].
Proof. unfold quote_byte. destruct (quote_safe b); discriminate. Qed.

Lemma quote_bytes_inj l1 l2 :
  Forall (fun b => b < 256)%N l1 -> Forall (fun b => b < 256)%N l2 ->
  flat_map quote_byte l1 = flat_map quote_byte l2 -> l1 = l2.
Proof.
  intros H1. revert l2. induction H1 as [|a l1 Ha H1 IH]; intros l2 H2 E;
    destruct H2 as [|b l2 Hb H2]; cbn [flat_map] in E.
  - reflexivity.
  - destruct (quote_byte b) eqn:Eq; [exact (False_rect _ (quote_byte_nonempty b Eq)) | discriminate].
  - destruct (quote_byte a) eqn:Eq; [exact (False_rect _ (quote_byte_nonempty a Eq)) | discriminate].
  - pose proof (quote_byte_head a b _ _ Ha Hb E) as <-.
    apply app_inv_head in E. f_equal. exact (IH l2 H2 E).
Qed.

(* ------------------------------------------------------------------ *)
(** ** Sorting and the list shown *)

Section Sorting.
Variable key : dict -> Z.

Lemma insert_by_elem x l z : z ∈ insert_by key x l <-> z = x \/ z ∈ l.
Proof.
  induction l as [|y l IH]; simpl.
  - rewrite list_elem_of_singleton. split; [auto|]. intros [H|H]; [exact H | inversion H].
  - destruct (key x <=? key y)%Z; rewrite !elem_of_cons; [tauto|]. rewrite IH. tauto.
Qed.

Lemma sort_by_elem l z : z ∈ sort_by key l <-> z ∈ l.
Proof.
  induction l as [|x l IH]; simpl; [tauto|].
  rewrite insert_by_elem, elem_of_cons, IH. tauto.
Qed.

Lemma insert_by_sorted x l : StronglySorted (fun a b => (key a <= key b)%Z) l -> StronglySorted (fun a b => (key a <= key b)%Z) (insert_by key x l).
Proof.
  induction l as [|y l IH]; intros H; simpl.
  - constructor; constructor.
  - apply StronglySorted_inv in H as [Hl Hy].
    destruct (Z.leb_spec (key x) (key y)).
    + constructor; [constructor; assumption|]. constructor; [cbn beta; lia|].
      eapply Forall_impl; [exact Hy|]. intros z Hz. cbn beta in *. lia.
    + constructor; [exact (IH Hl)|]. apply Forall_forall. intros z Hz.
      apply insert_by_elem in Hz as [->|Hz]; [cbn beta; lia|].
      rewrite Forall_forall in Hy. exact (Hy z Hz).
Qed.

Lemma sort_by_sorted l : StronglySorted (fun a b => (key a <= key b)%Z) (sort_by key l).
Proof. induction l as [|x l IH]; simpl; [constructor|]. apply insert_by_sorted, IH. Qed.

End Sorting.

Lemma filter_sorted {A} (R : A -> A -> Prop) (f : A -> bool) l :
  StronglySorted R l -> StronglySorted R (List.filter f l).
Proof.
  induction 1 as [|x l Hl IH Hx]; simpl; [constructor|].
  destruct (f x); [|exact IH]. constructor; [exact IH|].
  apply List.Forall_forall. intros y Hy. apply filter_In in Hy as [Hy _].
  rewrite List.Forall_forall in Hx. exact (Hx y Hy).
Qed.

Lemma take_sorted {A} (R : A -> A -> Prop) n l :
  StronglySorted R l -> StronglySorted R (take n l).
Proof.
  intros H. revert n. induction H as [|x l Hl IH Hx]; intros [|n]; simpl; try constructor.
  - apply IH.
  - apply Forall_take, Hx.
Qed.

Lemma sorted_app {A} (R : A -> A -> Prop) a b :
  StronglySorted R (a ++ b) -> forall t s, t ∈ a -> s ∈ b -> R t s.
Proof.
  induction a as [|x a IH]; simpl; intros H t s Ht Hs; [inversion Ht|].
  apply StronglySorted_inv in H as [H Hx]. apply elem_of_cons in Ht as [->|Ht].
  - rewrite Forall_forall in Hx. apply Hx. apply elem_of_app. right. exact Hs.
  - exact (IH H t s Ht Hs).
Qed.

Lemma with_distance_of haversine o s :
  distance_of (with_distance haversine o s) =
  haversine o.1 o.2 (num_at (u "lat") s) (num_at (u "lng") s).
Proof. unfold distance_of, with_distance. rewrite lookup_insert_eq. reflexivity. Qed.

Lemma with_distance_num haversine o s k :
  k <> u "distance_km" -> num_at k (with_distance haversine o s) = num_at k s.
Proof. intros Hk. unfold num_at, with_distance. rewrite lookup_insert_ne by congruence. reflexivity. Qed.

Lemma company_of_well_formed c d : well_formed_record c d -> is_Some (d !! u "company").
Proof. intros [n [a [-> _]]]. eexists. reflexivity. Qed.

Lemma all_stores_company U sources s :
  In s (all_stores (extract_all U sources)) -> is_Some (s !! u "company").
Proof.
  unfold extract_all. rewrite fold_extract_step. simpl.
  intros Hd. apply in_flat_map in Hd as [[src label] [_ Hd]].
  unfold source_stores in Hd. simpl in Hd.
  destruct (extract_stores_from_pdf U src) as [stores|] eqn:E; [|contradiction].
  apply in_map_iff in Hd as [d0 [<- Hd0]].
  apply extract_stores_ok in E as [text ->].
  assert (Hw : well_formed_record (company_of U (raw_name src)) d0).
  { apply (parse_stores_well_formed U text).
    eapply elem_of_sublist; [apply list_elem_of_In; exact Hd0 | apply dedup_loop_sublist]. }
  destruct Hw as [n [a [-> _]]]. eexists. reflexivity.
Qed.

(* ------------------------------------------------------------------ *)
(** ** Extra: [urllib_quote] *)

(** For a string of Unicode scalar values, [urllib_quote] only produces
    ASCII letters, digits, [_.-~], ["/"] and ["%"], so the address it
    puts in the Google Maps link cannot contain [&], [=], [#], [?], [+] or
    a space. *)
Theorem urllib_quote_url_safe (s : pystr) :
  Forall scalar_value s ->
  Forall (fun c => quote_safe c = true \/ c = 37%N) (urllib_quote s).
Proof.
  intros Hs. apply scalar_value_lt, encode_bytes in Hs.
  unfold urllib_quote. induction Hs as [|b l Hb Hl IH]; [constructor|].
  cbn [flat_map]. apply Forall_app. split; [|exact IH].
  unfold quote_byte. destruct (quote_safe b) eqn:Eb; [constructor; [left; exact Eb | constructor]|].
  assert (Hhex : forall d, (d < 16)%N -> quote_safe (hex_upper d) = true).
  { intros d Hd. unfold hex_upper, quote_safe, _ALWAYS_SAFE, Re.range.
    destruct (N.ltb_spec d 10).
    - replace ((48 <=? 48 + d) && (48 + d <=? 57))%N with true by (symmetry; apply andb_true_intro; split; apply N.leb_le; lia).
      rewrite !orb_true_r. reflexivity.
    - replace ((65 <=? 55 + d) && (55 + d <=? 90))%N with true by (symmetry; apply andb_true_intro; split; apply N.leb_le; lia).
      reflexivity. }
  constructor; [right; reflexivity|].
  constructor; [left; apply Hhex; rewrite shr4; narith|].
  constructor; [left; apply Hhex; rewrite land15; narith|]. constructor.
Qed.

Lemma urllib_quote_url_safe_witness :
  Forall scalar_value (u "東京都渋谷区道玄坂2-1-1 03-5555-6666") /\
  Forall (fun c => quote_safe c = true \/ c = 37%N)
    (urllib_quote (u "東京都渋谷区道玄坂2-1-1 03-5555-6666")).
Proof.
  assert (H : Forall scalar_value (u "東京都渋谷区道玄坂2-1-1 03-5555-6666")).
  { apply scalar_values_check. vm_compute. reflexivity. }
  split; [exact H | exact (urllib_quote_url_safe _ H)].
Defined.

(** [urllib_quote] is injective on strings of Unicode scalar values: two
    different addresses never give the same link. *)
Theorem urllib_quote_injective (s1 s2 : pystr) :
  Forall scalar_value s1 -> Forall scalar_value s2 ->
  urllib_quote s1 = urllib_quote s2 -> s1 = s2.
Proof.
  intros H1 H2 E. apply scalar_value_lt in H1, H2.
  rewrite <- (decode_encode s1 H1), <- (decode_encode s2 H2). f_equal.
  apply quote_bytes_inj; [exact (encode_bytes s1 H1) | exact (encode_bytes s2 H2) | exact E].
Qed.

Lemma urllib_quote_injective_witness :
  u "東京都渋谷区" = u "東京都渋谷区".
Proof.
  assert (H : Forall scalar_value (u "東京都渋谷区")).
  { apply scalar_values_check. vm_compute. reflexivity. }
  exact (urllib_quote_injective (u "東京都渋谷区") (u "東京都渋谷区") H H eq_refl).
Defined.

(* ------------------------------------------------------------------ *)
(** ** Extra: the company filter at its default selection *)

(** With the multiselect left at its default (every company), the company
    filter keeps exactly the stores that have a "company" key when there
    are two or more companies, and all stores otherwise; every store the
    app extracts has that key, so none of them is filtered out. *)
Theorem company_filter_default :
  (forall stores : list dict,
     company_filter stores (all_companies stores) =
     if (1 <? length (all_companies stores))%nat
     then List.filter (fun s => bool_decide (is_Some (s !! u "company"))) stores
     else stores) /\
  (forall (U : Unicode) (sources : list (PdfSource * pystr)),
     let st := all_stores (extract_all U sources) in
     company_filter st (all_companies st) = st).
Proof.
  assert (Hgen : forall stores : list dict,
     company_filter stores (all_companies stores) =
     if (1 <? length (all_companies stores))%nat
     then List.filter (fun s => bool_decide (is_Some (s !! u "company"))) stores
     else stores).
  { intros stores. unfold company_filter.
    destruct (1 <? length (all_companies stores))%nat; [|reflexivity].
    apply filter_ext_in. intros s Hs.
    destruct (s !! u "company") as [v|] eqn:E.
    - rewrite !bool_decide_eq_true_2; [reflexivity | eexists; reflexivity |].
      unfold all_companies. apply elem_of_remove_dups, list_elem_of_fmap.
      exists s. split; [unfold company_get; rewrite E; reflexivity | apply list_elem_of_In, Hs].
    - rewrite bool_decide_eq_false_2; [reflexivity|]. intros [x Hx]. discriminate. }
  split; [exact Hgen|].
  intros U sources st. rewrite Hgen.
  destruct (1 <? length (all_companies st))%nat; [|reflexivity].
  apply filter_all_true. intros s Hs. apply bool_decide_eq_true_2.
  apply (all_stores_company U sources), list_elem_of_In, Hs.
Qed.

(* ------------------------------------------------------------------ *)
(** ** Extra: the list of stores shown *)

(** When the current address was found at an origin whose latitude and
    longitude are both non-zero, the stores shown are at most
    [max_results] geocoded stores, each carrying its haversine distance
    from the origin under "distance_km", all within [max_distance_km],
    nearest first; and a store within [max_distance_km] is left out only
    when [max_results] stores are shown, none of them farther than it. *)
Theorem display_stores_nearest (haversine : Z -> Z -> Z -> Z -> Z) (o : coord)
    (geocoded : list dict) (max_distance_km : Z) (max_results : nat) :
  o.1 <> 0%Z -> o.2 <> 0%Z ->
  let shown := display_stores haversine (Some o) geocoded max_distance_km max_results in
  let cand := map (with_distance haversine o) geocoded in
  (length shown <= max_results)%nat /\
  StronglySorted (fun a b => (distance_of a <= distance_of b)%Z) shown /\
  (forall s, s ∈ shown ->
     s ∈ cand /\
     distance_of s = haversine o.1 o.2 (num_at (u "lat") s) (num_at (u "lng") s) /\
     (distance_of s <= max_distance_km)%Z) /\
  (forall s, s ∈ cand -> (distance_of s <= max_distance_km)%Z -> s ∉ shown ->
     length shown = max_results /\ forall t, t ∈ shown -> (distance_of t <= distance_of s)%Z).
Proof.
  intros H1 H2 shown cand.
  set (F := List.filter (fun s => (distance_of s <=? max_distance_km)%Z)
              (sort_by distance_of cand)).
  assert (Hshown : shown = take max_results F).
  { unfold shown, display_stores. rewrite (proj2 (Z.eqb_neq _ _) H1), (proj2 (Z.eqb_neq _ _) H2).
    reflexivity. }
  assert (HF : StronglySorted (fun a b => (distance_of a <= distance_of b)%Z) F)
    by (apply filter_sorted, sort_by_sorted).
  assert (HinF : forall s, s ∈ F <-> s ∈ cand /\ (distance_of s <= max_distance_km)%Z).
  { intros s. unfold F. rewrite list_elem_of_In, filter_In, <- list_elem_of_In, sort_by_elem.
    rewrite Z.leb_le. tauto. }
  rewrite Hshown. split; [rewrite length_take; lia|]. split; [apply take_sorted, HF|]. split.
  - intros s Hs. eapply elem_of_sublist in Hs; [|apply (sublist_take F max_results)].
    apply HinF in Hs as [Hc Hd]. split; [exact Hc|]. split; [|exact Hd].
    unfold cand in Hc. apply list_elem_of_fmap in Hc as [g [-> _]].
    rewrite with_distance_of, !with_distance_num by (vm_compute; discriminate). reflexivity.
  - intros s Hc Hd Hn.
    assert (HsF : s ∈ F) by (apply HinF; split; assumption).
    assert (Hdrop : s ∈ drop max_results F).
    { rewrite <- (take_drop max_results F) in HsF. apply elem_of_app in HsF as [H|H];
        [contradiction | exact H]. }
    split.
    + rewrite length_take. destruct (decide (length F <= max_results)%nat) as [Hle|Hlt].
      * rewrite drop_ge in Hdrop by exact Hle. inversion Hdrop.
      * lia.
    + intros t Ht. rewrite <- (take_drop max_results F) in HF.
      exact (sorted_app _ _ _ HF t s Ht Hdrop).
Qed.

Lemma display_stores_nearest_witness :
  let o := (35%Z, 139%Z) in
  let g := [<[u "lat" := VNum 1]> (<[u "lng" := VNum 2]> ∅)] in
  let hv := fun _ _ la ln => (la + ln)%Z in
  let shown := display_stores hv (Some o) g 10 5 in
  let cand := map (with_distance hv o) g in
  (length shown <= 5)%nat /\
  StronglySorted (fun a b => (distance_of a <= distance_of b)%Z) shown /\
  (forall s, s ∈ shown ->
     s ∈ cand /\
     distance_of s = hv o.1 o.2 (num_at (u "lat") s) (num_at (u "lng") s) /\
     (distance_of s <= 10)%Z) /\
  (forall s, s ∈ cand -> (distance_of s <= 10)%Z -> s ∉ shown ->
     length shown = 5%nat /\ forall t, t ∈ shown -> (distance_of t <= distance_of s)%Z).
Proof.
  intros o g hv. apply (display_stores_nearest hv o g 10 5); simpl; discriminate.
Defined.


(* ------------------------------------------------------------------ *)
(** ** [re.sub] with an empty replacement removes every character that
    the pattern matches on its own *)

Lemma star_bounds s lz r1 :
  (forall j k, In k (Re.ends s r1 j) -> (j <= k <= Nat.max j (length s))%nat) ->
  forall f j e, In e (star_ends s lz r1 f j) -> (j <= e <= Nat.max j (length s))%nat.
Proof.
  intros H1 f. induction f as [|f IH]; intros j e He; simpl in He.
  - destruct He as [<-|[]]. lia.
  - assert (Hm : In e (flat_map (fun k => if (j <? k)%nat then star_ends s lz r1 f k else [])
                        (Re.ends s r1 j)) -> (j <= e <= Nat.max j (length s))%nat).
    { intros Hin. apply in_flat_map in Hin as [k [Hk Hin]].
      destruct (Nat.ltb_spec j k); [|destruct Hin].
      specialize (H1 j k Hk). specialize (IH k e Hin). lia. }
    destruct lz.
    + destruct He as [<-|He]; [lia | exact (Hm He)].
    + apply in_app_iff in He as [He|[<-|[]]]; [exact (Hm He) | lia].
Qed.

Lemma ends_bounds s r : forall i e, In e (Re.ends s r i) -> (i <= e <= Nat.max i (length s))%nat.
Proof.
  induction r as [q|r1 IH1 r2 IH2|r1 IH1 r2 IH2|lz r1 IH1| |]; intros i e He.
  - rewrite ends_char in He. destruct (s !! i) as [c|] eqn:Ec; [|destruct He].
    destruct (q c); [|destruct He]. destruct He as [<-|[]].
    apply lookup_lt_Some in Ec. lia.
  - rewrite ends_seq in He. apply in_flat_map in He as [k [Hk He]].
    specialize (IH1 i k Hk). specialize (IH2 k e He). lia.
  - rewrite ends_alt in He. apply in_app_iff in He as [He|He]; [exact (IH1 i e He) | exact (IH2 i e He)].
  - rewrite ends_star in He. exact (star_bounds s lz r1 IH1 _ i e He).
  - destruct He as [<-|[]]. lia.
  - simpl in He. destruct (Nat.eqb i 0); [|destruct He]. destruct He as [<-|[]]. lia.
Qed.

Lemma first_end_some s r p adv e :
  Re.first_end s r p adv = Some e -> In e (Re.ends s r p) /\ (adv = true -> (p < e)%nat).
Proof.
  unfold Re.first_end. intros H.
  assert (Hh : forall (l : list nat) x, head l = Some x -> In x l)
    by (intros [|y l] x Hx; [discriminate | injection Hx as ->; left; reflexivity]).
  destruct adv.
  - apply Hh, filter_In in H as [H1 H2]. split; [exact H1|]. intros _. apply Nat.ltb_lt, H2.
  - split; [exact (Hh _ _ H) | discriminate].
Qed.

Lemma search_some s r n : forall p adv st e,
  Re.search_from s r p adv n = Some (st, e) ->
  (p <= st <= p + n)%nat /\ Re.first_end s r st (adv && (st =? p))%nat = Some e /\
  (forall k, (p <= k < st)%nat -> Re.first_end s r k (adv && (k =? p))%nat = None).
Proof.
  induction n as [|n IH]; intros p adv st e H; simpl in H;
    destruct (Re.first_end s r p adv) as [e'|] eqn:E.
  1,3: injection H as <- <-; rewrite Nat.eqb_refl, andb_true_r;
       split; [lia|]; split; [exact E | intros k Hk; lia].
  - discriminate.
  - destruct (IH (S p) false st e H) as [Hst [He Hk]]. split; [lia|].
    rewrite (proj2 (Nat.eqb_neq st p)) by lia. rewrite andb_false_r. split; [exact He|].
    intros k Hk'. destruct (decide (k = p)) as [->|Hne].
    + rewrite Nat.eqb_refl, andb_true_r. exact E.
    + rewrite (proj2 (Nat.eqb_neq k p)) by lia. rewrite andb_false_r.
      specialize (Hk k ltac:(lia)). exact Hk.
Qed.

Lemma search_none s r n : forall p adv,
  Re.search_from s r p adv n = None ->
  forall k, (p <= k <= p + n)%nat -> Re.first_end s r k (adv && (k =? p))%nat = None.
Proof.
  induction n as [|n IH]; intros p adv H k Hk; simpl in H;
    destruct (Re.first_end s r p adv) as [e'|] eqn:E; try discriminate.
  - assert (k = p) as -> by lia. rewrite Nat.eqb_refl, andb_true_r. exact E.
  - destruct (decide (k = p)) as [->|Hne].
    + rewrite Nat.eqb_refl, andb_true_r. exact E.
    + rewrite (proj2 (Nat.eqb_neq k p)) by lia. rewrite andb_false_r.
      specialize (IH (S p) false H k ltac:(lia)). exact IH.
Qed.

Section Avoid.
Variable s : list N.
Variable r : Re.regex.
Variable P : N -> bool.
Hypothesis HP : forall k c, s !! k = Some c -> P c = true -> In (S k) (Re.ends s r k).

Lemma first_end_at_P k c adv : s !! k = Some c -> P c = true -> Re.first_end s r k adv <> None.
Proof.
  intros Hc HPc. pose proof (HP k c Hc HPc) as Hin. unfold Re.first_end.
  assert (Hh : forall (l : list nat) x, In x l -> head l <> None)
    by (intros [|y l] x Hx; [destruct Hx | discriminate]).
  destruct adv; [|exact (Hh _ _ Hin)].
  apply (Hh _ (S k)). apply filter_In. split; [exact Hin | apply Nat.ltb_lt; lia].
Qed.

Lemma range_no_P p q adv :
  (forall k, (p <= k < q)%nat -> Re.first_end s r k (adv && (k =? p))%nat = None) ->
  Forall (fun c => P c = false) (Re.slice s p q).
Proof.
  intros H. apply Forall_forall. intros c Hc. unfold Re.slice in Hc.
  apply list_elem_of_lookup in Hc as [j Hj]. rewrite lookup_take_Some in Hj.
  destruct Hj as [Hj Hlt]. rewrite lookup_drop in Hj.
  destruct (P c) eqn:Ep; [|reflexivity]. exfalso.
  exact (first_end_at_P (p + j) c _ Hj Ep (H (p + j)%nat ltac:(lia))).
Qed.

Lemma sub_loop_avoid f : forall (p : nat) (adv : bool),
  (p <= length s)%nat ->
  (2 * (length s - p) + (if adv then 0 else 1)%nat < f)%nat ->
  Forall (fun c => P c = false) (Re.sub_loop s r [] p adv f).
Proof.
  induction f as [|f IH]; intros p adv Hp Hf; [lia|]. simpl.
  destruct (Re.search_from s r p adv (length s - p)) as [[st e]|] eqn:Es.
  - destruct (search_some s r _ p adv st e Es) as [Hst [He Hk]].
    destruct (first_end_some s r st _ e He) as [Hin Hlt].
    pose proof (ends_bounds s r st e Hin) as Hb.
    apply Forall_app. split; [exact (range_no_P p st adv Hk)|]. simpl.
    apply IH; [lia|].
    destruct adv, (Nat.eqb_spec st e), (Nat.eqb_spec st p); simpl in Hlt; try lia.
  - apply Forall_forall. intros c Hc. apply list_elem_of_lookup in Hc as [j Hj].
    rewrite lookup_drop in Hj. destruct (P c) eqn:Ep; [|reflexivity]. exfalso.
    pose proof (lookup_lt_Some _ _ _ Hj).
    exact (first_end_at_P (p + j) c _ Hj Ep (search_none s r _ p adv Es (p + j)%nat ltac:(lia))).
Qed.

Lemma sub_avoid : Forall (fun c => P c = false) (Re.sub r [] s).
Proof. unfold Re.sub. apply sub_loop_avoid; lia. Qed.

End Avoid.

Lemma ends_alts_in s l r0 k e :
  In r0 l -> In e (Re.ends s r0 k) -> In e (Re.ends s (Re.alts l) k).
Proof.
  induction l as [|r1 l IH]; [intros []|]. intros [->|Hr] He; unfold Re.alts; simpl fold_right;
    rewrite ends_alt; apply in_app_iff; [left; exact He | right; exact (IH Hr He)].
Qed.

Lemma strip_forall (Q : N -> Prop) l : Forall Q l -> Forall Q (strip l).
Proof.
  intros H. destruct (strip_infix l) as [a [b E]]. rewrite E in H.
  apply Forall_app in H as [_ H]. apply Forall_app in H as [H _]. exact H.
Qed.

(* ------------------------------------------------------------------ *)
(** ** Extra: the company name taken from a file name *)

(** The company name [extract_stores_from_pdf] derives from a non-empty
    file name is non-empty; unless it falls back to the raw name, it has no
    whitespace character and no [_] (each of them is one of the
    alternatives the pattern removes). *)
Theorem company_of_shape (U : Unicode) (raw : pystr) :
  (truthy raw = true -> truthy (company_of U raw) = true) /\
  (company_of U raw = raw \/
   Forall (fun c => py_isspace c = false /\ c <> 95%N) (company_of U raw)).
Proof.
  assert (HP : forall k c, raw !! k = Some c ->
                 (py_isspace c || (c =? 95)%N) = true -> In (S k) (Re.ends raw (COMPANY_RE U) k)).
  { intros k c Hc HPc. unfold COMPANY_RE. apply orb_true_iff in HPc as [Hs|H95].
    - apply (ends_alts_in _ _ SPACE_RE).
      + apply in_app_iff. right. apply in_app_iff. right. left. reflexivity.
      + unfold SPACE_RE. rewrite ends_char, Hc, Hs. left. reflexivity.
    - apply N.eqb_eq in H95. subst c.
      apply (ends_alts_in _ _ (Re.str [95%N])).
      + apply in_app_iff. right. apply in_app_iff. left. unfold words.
        apply in_map. vm_compute. repeat (first [left; reflexivity | right]).
      + unfold Re.str. simpl fold_right. rewrite ends_seq, ends_lit, Hc. simpl. left. reflexivity. }
  pose proof (sub_avoid raw (COMPANY_RE U) _ HP) as Hsub.
  unfold company_of. destruct (truthy (strip (Re.sub (COMPANY_RE U) [] raw))) eqn:Et.
  - split; [intros _; exact Et|]. right. apply strip_forall.
    eapply Forall_impl; [exact Hsub|]. intros c Hc. apply orb_false_iff in Hc as [H1 H2].
    split; [exact H1|]. intros ->. discriminate.
  - split; [intros H; exact H | left; reflexivity].
Qed.
